(** * Fixture difficulty service (src/services/fixtureDifficultyService.ts)

    Shallow embedding of [FixtureDifficultyService]: the league-wide team
    strength computation with its promise-sharing cache, the population
    scaling helpers, the per-fixture difficulty composite and the upcoming
    fixture selection.  Numbers of the TypeScript source are modelled as
    rationals [Q]: the arithmetic is the exact reading of the source's
    double-precision expressions, and the results stated over [Q] hold of
    that reading.  Where rounding decides a property (an exact equality or
    a strict order between computed values), the helpers are also given in
    binary64, as JS computes them, in module [F64] with the kernel's
    primitive IEEE-754 floats. *)

From Stdlib Require Import ZArith QArith Qminmax Qround Lqa List String Bool Lia Sorting.Sorted Sorting.Permutation.
From Stdlib Require Import PrimFloat.
Import ListNotations.
(* Decimal literals such as 0.1 denote the nearest double, as in JS. *)
Set Warnings "-inexact-float".
Open Scope Q_scope.

(** ** Data model *)

Record TeamStrength := mkTeamStrength {
  teamId : Z;
  teamName : string;
  xGPer90 : Q;
  xGAPer90 : Q;
  gfPer90 : Q;
  gaPer90 : Q;
  xGPer90Home : Q;
  xGAPer90Home : Q;
  xGPer90Away : Q;
  xGAPer90Away : Q;
  gfPer90Home : Q;
  gaPer90Home : Q;
  gfPer90Away : Q;
  gaPer90Away : Q;
  homeAttackBonus : Q;
  homeDefenseBonus : Q;
  formFactor : Q
}.

(** The output record [FixtureDifficulty]; its own module so that its
    field names can be the source's. *)
Module FD.
Record t := mk {
  gameweek : Z;
  opponentTeamId : Z;
  opponentTeamName : string;
  isHome : bool;
  attackDifficulty : Z;
  defenseDifficulty : Z;
  attackDifficultyRaw : Q;
  defenseDifficultyRaw : Q
}.
End FD.

(** The argument records of [calculateFixtureDifficulty]:
    [{ gameweek; opponentTeamId; isHome }]. *)
Record UpcomingFixture := mkUpcoming {
  gameweek : Z;
  opponentTeamId : Z;
  isHome : bool
}.

(** A team of the bootstrap-static payload: [{ id; name }]. *)
Record FPLTeam := mkFPLTeam { id : Z; name : string }.

(** A JS [Map<number, TeamStrength>]: entries in insertion order. *)
Definition StrengthMap := list (Z * TeamStrength).

Fixpoint map_get {A} (m : list (Z * A)) (k : Z) : option A :=
  match m with
  | [] => None
  | (k', v) :: r => if Z.eqb k k' then Some v else map_get r k
  end.

(** [Map.prototype.set]: an existing key keeps its position. *)
Fixpoint map_set {A} (m : list (Z * A)) (k : Z) (v : A) : list (Z * A) :=
  match m with
  | [] => [(k, v)]
  | (k', v') :: r => if Z.eqb k k' then (k, v) :: r else (k', v') :: map_set r k v
  end.

Definition map_values {A} (m : list (Z * A)) : list A := List.map snd m.

(** [Math.min(...xs)] / [Math.max(...xs)].  On an empty pool JS yields
    +/-Infinity; the pools are empty only when the strengths map is, and
    then every fixture is skipped before a bound is read. *)
Definition jsMin (xs : list Q) : Q :=
  match xs with [] => 0 | x :: r => fold_left Qmin r x end.
Definition jsMax (xs : list Q) : Q :=
  match xs with [] => 0 | x :: r => fold_left Qmax r x end.

(** ** Scaling helpers *)

Definition scaleTo100 (value min max : Q) : Q :=
  if Qeq_bool max min then 50 else ((value - min) / (max - min)) * 100.

Definition scaleTo100Inverted (value min max : Q) : Q :=
  if Qeq_bool max min then 50 else ((max - value) / (max - min)) * 100.

(** The same two helpers in binary64: [-], [/] and [*] are the IEEE-754
    round-to-nearest operations of a JS [number], and [max === min] is
    IEEE equality. *)
Module F64.
Local Open Scope float_scope.

Definition scaleTo100 (value min max : float) : float :=
  if PrimFloat.eqb max min then 50 else ((value - min) / (max - min)) * 100.

Definition scaleTo100Inverted (value min max : float) : float :=
  if PrimFloat.eqb max min then 50 else ((max - value) / (max - min)) * 100.

End F64.

Arguments F64.scaleTo100 (value min max)%_float_scope.
Arguments F64.scaleTo100Inverted (value min max)%_float_scope.

Definition scaleToDifficulty (rating : Q) : Z :=
  if Qle_bool rating 20 then 1
  else if Qle_bool rating 40 then 2
  else if Qle_bool rating 60 then 3
  else if Qle_bool rating 80 then 4
  else 5.

(** ** [calculateFixtureDifficulty] *)

Definition ALPHA : Q := 7 # 10.  (* weight for xG vs GF *)
Definition BETA : Q := 7 # 10.   (* weight for xGA vs GA *)

Definition homeAttackOf (s : TeamStrength) : Q :=
  (ALPHA * xGPer90Home s) + ((1 - ALPHA) * gfPer90Home s).
Definition awayAttackOf (s : TeamStrength) : Q :=
  (ALPHA * xGPer90Away s) + ((1 - ALPHA) * gfPer90Away s).
Definition homeDefenseOf (s : TeamStrength) : Q :=
  (BETA * xGAPer90Home s) + ((1 - BETA) * gaPer90Home s).
Definition awayDefenseOf (s : TeamStrength) : Q :=
  (BETA * xGAPer90Away s) + ((1 - BETA) * gaPer90Away s).

(** The five pools filled by [teamStrengths.forEach] and their bounds. *)
Record Bounds := mkBounds {
  minHomeAttack : Q; maxHomeAttack : Q;
  minAwayAttack : Q; maxAwayAttack : Q;
  minHomeDefense : Q; maxHomeDefense : Q;
  minAwayDefense : Q; maxAwayDefense : Q;
  minForm : Q; maxForm : Q
}.

Definition computeBounds (teamStrengths : StrengthMap) : Bounds :=
  let vs := map_values teamStrengths in
  let allHomeAttackRatings := List.map homeAttackOf vs in
  let allAwayAttackRatings := List.map awayAttackOf vs in
  let allHomeDefenseRatings := List.map homeDefenseOf vs in
  let allAwayDefenseRatings := List.map awayDefenseOf vs in
  let allFormFactors := List.map formFactor vs in
  mkBounds (jsMin allHomeAttackRatings) (jsMax allHomeAttackRatings)
           (jsMin allAwayAttackRatings) (jsMax allAwayAttackRatings)
           (jsMin allHomeDefenseRatings) (jsMax allHomeDefenseRatings)
           (jsMin allAwayDefenseRatings) (jsMax allAwayDefenseRatings)
           (jsMin allFormFactors) (jsMax allFormFactors).

(** The four scaled signals of one fixture (lines 374-410). *)
Record Scaled := mkScaled {
  attackRatingScaled : Q;
  defenseRatingScaled : Q;
  homeAwayFactorScaled : Q;
  formFactorScaled : Q
}.

Definition scaledSignals (b : Bounds) (fixture : UpcomingFixture)
    (opponentStrength : TeamStrength) : Scaled :=
  let opponentXG := if isHome fixture then xGPer90Away opponentStrength
                    else xGPer90Home opponentStrength in
  let opponentXGA := if isHome fixture then xGAPer90Away opponentStrength
                     else xGAPer90Home opponentStrength in
  let opponentGF := if isHome fixture then gfPer90Away opponentStrength
                    else gfPer90Home opponentStrength in
  let opponentGA := if isHome fixture then gaPer90Away opponentStrength
                    else gaPer90Home opponentStrength in
  let opponentAttackRating := (ALPHA * opponentXG) + ((1 - ALPHA) * opponentGF) in
  let opponentDefenseRating := (BETA * opponentXGA) + ((1 - BETA) * opponentGA) in
  let minAttack := if isHome fixture then minAwayAttack b else minHomeAttack b in
  let maxAttack := if isHome fixture then maxAwayAttack b else maxHomeAttack b in
  let minDefense := if isHome fixture then minAwayDefense b else minHomeDefense b in
  let maxDefense := if isHome fixture then maxAwayDefense b else maxHomeDefense b in
  let attackRatingScaled := scaleTo100 opponentAttackRating minAttack maxAttack in
  let defenseRatingScaled :=
    scaleTo100Inverted opponentDefenseRating minDefense maxDefense in
  let homeAwayBonus := if isHome fixture then homeDefenseBonus opponentStrength
                       else - homeAttackBonus opponentStrength in
  let homeAwayFactorScaled := Qmax 0 (Qmin 100 (50 + (homeAwayBonus * 20))) in
  let formFactorScaled := scaleTo100 (formFactor opponentStrength) (minForm b) (maxForm b) in
  mkScaled attackRatingScaled defenseRatingScaled homeAwayFactorScaled formFactorScaled.

(** Lines 415-427. *)
Definition attackDifficultyRawOf (sc : Scaled) : Q :=
  (defenseRatingScaled sc * (70 # 100)) +
  (attackRatingScaled sc * (20 # 100)) +
  (homeAwayFactorScaled sc * (5 # 100)) +
  (formFactorScaled sc * (5 # 100)).

Definition defenseDifficultyRawOf (sc : Scaled) : Q :=
  (attackRatingScaled sc * (70 # 100)) +
  (defenseRatingScaled sc * (20 # 100)) +
  (homeAwayFactorScaled sc * (5 # 100)) +
  (formFactorScaled sc * (5 # 100)).

Definition findTeam (teams : list FPLTeam) (k : Z) : option FPLTeam :=
  find (fun t => Z.eqb (id t) k) teams.

(** One iteration of the [for] loop: [inl w] is a [continue] after
    [console.warn] for team [w]; [inr None] the silent [continue] when the
    opponent is missing from the bootstrap teams; [inr (Some d)] a push. *)
Definition scoreFixture (teamStrengths : StrengthMap) (b : Bounds)
    (teams : list FPLTeam) (fixture : UpcomingFixture) : Z + option FD.t :=
  match map_get teamStrengths (opponentTeamId fixture) with
  | None => inl (opponentTeamId fixture)
  | Some opponentStrength =>
      match findTeam teams (opponentTeamId fixture) with
      | None => inr None
      | Some opponentTeam =>
          let sc := scaledSignals b fixture opponentStrength in
          let attackDifficultyRaw := attackDifficultyRawOf sc in
          let defenseDifficultyRaw := defenseDifficultyRawOf sc in
          inr (Some (FD.mk (gameweek fixture) (opponentTeamId fixture)
                       (name opponentTeam) (isHome fixture)
                       (scaleToDifficulty attackDifficultyRaw)
                       (scaleToDifficulty defenseDifficultyRaw)
                       attackDifficultyRaw defenseDifficultyRaw))
      end
  end.

(** The loop, returning the pushed ratings and the warned team ids. *)
Fixpoint scoreLoop (teamStrengths : StrengthMap) (b : Bounds)
    (teams : list FPLTeam) (fixtures : list UpcomingFixture)
    : list FD.t * list Z :=
  match fixtures with
  | [] => ([], [])
  | f :: rest =>
      let '(ds, ws) := scoreLoop teamStrengths b teams rest in
      match scoreFixture teamStrengths b teams f with
      | inl w => (ds, w :: ws)
      | inr None => (ds, ws)
      | inr (Some d) => (d :: ds, ws)
      end
  end.

(** [calculateFixtureDifficulty] once [calculateTeamStrengths] and the
    bootstrap fetch have produced [teamStrengths] and [teams]. *)
Definition calculateFixtureDifficulty (teamStrengths : StrengthMap)
    (teams : list FPLTeam) (upcomingFixtures : list UpcomingFixture)
    : list FD.t * list Z :=
  scoreLoop teamStrengths (computeBounds teamStrengths) teams upcomingFixtures.

(** ** [getTeamUpcomingFixtures] *)

(** The fields of [FPLFixture] the method reads. *)
Record FPLFixture := mkFPLFixture {
  event : Z;      (* gameweek *)
  team_h : Z;     (* home team id *)
  team_a : Z;     (* away team id *)
  finished : bool
}.

(** [Array.prototype.sort] with comparator [a.event - b.event]: a stable
    sort by [event] (insertion sort; an element is placed before the first
    element whose event is not smaller). *)
Fixpoint insertByEvent (x : FPLFixture) (l : list FPLFixture) : list FPLFixture :=
  match l with
  | [] => [x]
  | y :: r => if Z.leb (event x) (event y) then x :: y :: r else y :: insertByEvent x r
  end.

Definition sortByEvent (l : list FPLFixture) : list FPLFixture :=
  fold_right insertByEvent [] l.

(** [Array.prototype.slice(0, count)] for an integral [count]: a negative
    end counts from the end of the array. *)
Definition slice0 {A} (l : list A) (count : Z) : list A :=
  if Z.leb 0 count then firstn (Z.to_nat count) l
  else firstn (Z.to_nat (Z.of_nat (List.length l) + count)) l.

(** The default value of the [count] parameter. *)
Definition defaultCount : Z := 10.

Definition selectTeamFixtures (allFixtures : list FPLFixture) (teamId count : Z)
    : list UpcomingFixture :=
  List.map (fun f => mkUpcoming (event f)
                       (if Z.eqb (team_h f) teamId then team_a f else team_h f)
                       (Z.eqb (team_h f) teamId))
    (slice0 (sortByEvent
               (filter (fun f => negb (finished f) &&
                                 (Z.eqb (team_h f) teamId || Z.eqb (team_a f) teamId))
                  allFixtures)) count).

(** [getTeamUpcomingFixtures(teamId, count = 10)].  [strengths] is the
    outcome of [calculateTeamStrengths] ([None]: it threw, and the [catch]
    returns [[]]); [teams] the cached bootstrap teams; [count = None] is a
    call that omits the argument. *)
Definition getTeamUpcomingFixtures (strengths : option StrengthMap)
    (teams : list FPLTeam) (allFixtures : list FPLFixture)
    (teamId : Z) (count : option Z) : list FD.t :=
  let count := match count with Some c => c | None => defaultCount end in
  let teamFixtures := selectTeamFixtures allFixtures teamId count in
  match strengths with
  | None => []
  | Some teamStrengths => fst (calculateFixtureDifficulty teamStrengths teams teamFixtures)
  end.

(** ** [_calculateTeamStrengths] *)

(** A row of the Understat endpoint.  [team_id = 0] stands for a missing
    (falsy) id.  For a number [x], [x || 0] is [x] (its only falsy values
    besides NaN are zeros), so the numeric fields are read as they are. *)
Record UnderstatTeam := mkUnderstatTeam {
  team_id : Z;
  team_name : string;
  xg_per90 : Q; xga_per90 : Q; gf_per90 : Q; ga_per90 : Q;
  home_xg_per90 : Q; home_xga_per90 : Q; away_xg_per90 : Q; away_xga_per90 : Q;
  home_gf_per90 : Q; home_ga_per90 : Q; away_gf_per90 : Q; away_ga_per90 : Q;
  home_attack_bonus : Q; home_defense_bonus : Q; form_factor : Q
}.

Definition fplToUnderstatMap : list (string * string) := [
  ("Arsenal", "Arsenal"); ("Aston Villa", "Aston Villa");
  ("Bournemouth", "Bournemouth"); ("Brentford", "Brentford");
  ("Brighton", "Brighton"); ("Burnley", "Burnley"); ("Chelsea", "Chelsea");
  ("Crystal Palace", "Crystal Palace"); ("Everton", "Everton");
  ("Fulham", "Fulham"); ("Ipswich", "Ipswich"); ("Leeds", "Leeds United");
  ("Leicester", "Leicester"); ("Liverpool", "Liverpool");
  ("Man City", "Manchester City"); ("Man Utd", "Manchester United");
  ("Newcastle", "Newcastle United"); ("Nott'm Forest", "Nottingham Forest");
  ("Southampton", "Southampton"); ("Spurs", "Tottenham");
  ("Sunderland", "Sunderland"); ("West Ham", "West Ham");
  ("Wolves", "Wolverhampton Wanderers")]%string.

Fixpoint smap_get {A} (m : list (string * A)) (k : string) : option A :=
  match m with
  | [] => None
  | (k', v) :: r => if String.eqb k k' then Some v else smap_get r k
  end.

Fixpoint smap_set {A} (m : list (string * A)) (k : string) (v : A) : list (string * A) :=
  match m with
  | [] => [(k, v)]
  | (k', v') :: r => if String.eqb k k' then (k, v) :: r else (k', v') :: smap_set r k v
  end.

Definition buildStrength (team : FPLTeam) (u : UnderstatTeam) : TeamStrength :=
  mkTeamStrength (id team) (name team)
    (xg_per90 u) (xga_per90 u) (gf_per90 u) (ga_per90 u)
    (home_xg_per90 u) (home_xga_per90 u) (away_xg_per90 u) (away_xga_per90 u)
    (home_gf_per90 u) (home_ga_per90 u) (away_gf_per90 u) (away_ga_per90 u)
    (home_attack_bonus u) (home_defense_bonus u) (form_factor u).

(** The body of [_calculateTeamStrengths] after its two fetches.  It writes
    into the service's map [store] ([this.teamStrengths]) and returns it;
    [None] is a thrown error.  A failed fetch is [None] in [understat] or
    [bootstrap]. *)
Definition _calculateTeamStrengths (understat : option (list UnderstatTeam))
    (bootstrap : option (list FPLTeam)) (store : StrengthMap) : option StrengthMap :=
  match understat with
  | None => None
  | Some [] => None          (* 'No team data received from Understat' *)
  | Some understatData =>
      match bootstrap with
      | None => None
      | Some teams =>
          let understatMapById :=
            fold_left (fun m (t : UnderstatTeam) =>
                         if Z.eqb (team_id t) 0 then m else map_set m (team_id t) t)
              understatData [] in
          let understatMapByName :=
            fold_left (fun m (t : UnderstatTeam) => smap_set m (team_name t) t)
              understatData [] in
          let lookup (team : FPLTeam) : option UnderstatTeam :=
            match map_get understatMapById (id team) with
            | Some u => Some u
            | None =>
                match smap_get fplToUnderstatMap (name team) with
                | Some understatName => smap_get understatMapByName understatName
                | None => None
                end
            end in
          Some (fold_left (fun st (team : FPLTeam) =>
                             match lookup team with
                             | None => st      (* console.warn; return *)
                             | Some u => map_set st (id team) (buildStrength team u)
                             end) teams store)
      end
  end.

(** ** [calculateTeamStrengths]: the promise-sharing cache

    JavaScript runs the method to its first [await] without interleaving,
    so a call is one atomic step.  The in-flight promise is named by the
    number of computations started before it.  The events are: a call; the
    settlement of the in-flight [_calculateTeamStrengths] promise (with the
    outcome of its two fetches); and the continuation of the first caller
    after its [await], which clears [calculatingTeamStrengths]. *)
Record Svc := mkSvc {
  teamStrengths : StrengthMap;
  calculatingTeamStrengths : option nat;
  computeCount : nat;                        (* invocations of _calculate *)
  settled : list (nat * option StrengthMap)  (* settled promises *)
}.

Inductive cacheEvent :=
| ECall
| ESettle (understat : option (list UnderstatTeam)) (bootstrap : option (list FPLTeam))
| ECleanup.

(** What a call hands back: the map itself, or a promise to await. *)
Inductive reply :=
| RValue (m : StrengthMap)
| RPromise (p : nat).

Fixpoint settledOf (l : list (nat * option StrengthMap)) (p : nat)
    : option (option StrengthMap) :=
  match l with
  | [] => None
  | (q, r) :: rest => if Nat.eqb p q then Some r else settledOf rest p
  end.

Definition step (s : Svc) (e : cacheEvent) : Svc * option reply :=
  match e with
  | ECall =>
      match teamStrengths s with
      | _ :: _ => (s, Some (RValue (teamStrengths s)))       (* size > 0 *)
      | [] =>
          match calculatingTeamStrengths s with
          | Some p => (s, Some (RPromise p))
          | None =>
              let p := computeCount s in
              (mkSvc (teamStrengths s) (Some p) (S p) (settled s), Some (RPromise p))
          end
      end
  | ESettle u b =>
      match calculatingTeamStrengths s with
      | None => (s, None)
      | Some p =>
          match settledOf (settled s) p with
          | Some _ => (s, None)
          | None =>
              let r := _calculateTeamStrengths u b (teamStrengths s) in
              let store := match r with Some m => m | None => teamStrengths s end in
              (mkSvc store (Some p) (computeCount s) ((p, r) :: settled s), None)
          end
      end
  | ECleanup =>
      match calculatingTeamStrengths s with
      | Some p =>
          match settledOf (settled s) p with
          | Some _ => (mkSvc (teamStrengths s) None (computeCount s) (settled s), None)
          | None => (s, None)
          end
      | None => (s, None)
      end
  end.

(** A trace of timed events; the service never reads the clock. *)
Fixpoint run (s : Svc) (tr : list (Z * cacheEvent)) : Svc * list reply :=
  match tr with
  | [] => (s, [])
  | (_, e) :: rest =>
      let '(s1, o) := step s e in
      let '(s2, rs) := run s1 rest in
      (s2, match o with Some r => r :: rs | None => rs end)
  end.

(** What a caller holding [r] finally obtains in state [s]: [None] while
    pending, [Some None] a rejection, [Some (Some m)] a map.  Both a direct
    return and a fulfilled [_calculateTeamStrengths] hand back the one
    shared [this.teamStrengths] object, so the caller sees that map's
    current contents, [teamStrengths s], not a copy taken when it resolved;
    the map recorded in [settled] only marks the fulfilment. *)
Definition resultOf (s : Svc) (r : reply) : option (option StrengthMap) :=
  match r with
  | RValue _ => Some (Some (teamStrengths s))
  | RPromise p =>
      match settledOf (settled s) p with
      | Some (Some _) => Some (Some (teamStrengths s))
      | o => o
      end
  end.

Definition emptySvc : Svc := mkSvc [] None 0 [].

(** A burst of calls at the given times. *)
Definition calls (times : list Z) : list (Z * cacheEvent) :=
  List.map (fun t => (t, ECall)) times.

(** ** [getPlayerHistory]: per-player history cache *)

Section PlayerHistory.
Context {FPLPlayerHistory : Type}.

(** [playerHistoryCache]; [fetch] is the outcome of the element-summary
    request: [None] when it throws, [Some h] with [h] the
    [response.data.history] field ([None] when absent). *)
Definition getPlayerHistory (playerHistoryCache : list (Z * list FPLPlayerHistory))
    (playerId : Z) (fetch : option (option (list FPLPlayerHistory)))
    : list (Z * list FPLPlayerHistory) * list FPLPlayerHistory :=
  match map_get playerHistoryCache playerId with
  | Some h => (playerHistoryCache, h)
  | None =>
      match fetch with
      | None => (playerHistoryCache, [])          (* console.warn; return [] *)
      | Some data =>
          let history := match data with Some h => h | None => [] end in
          (map_set playerHistoryCache playerId history, history)
      end
  end.

End PlayerHistory.

(** ** [getPlayerUpcomingFixtures] *)

(** The fields of an [element-summary] fixture the method reads;
    [sf_is_home = None] when the field is [undefined]. *)
Record SummaryFixture := mkSummaryFixture {
  sf_event : Z; sf_team_h : Z; sf_team_a : Z; sf_finished : bool; sf_is_home : option bool
}.

(** The fields of [Player] (dataService) the method reads. *)
Record PlayerTeamRef := mkPlayerTeamRef { ref_id : Z; ref_team : string }.

(** [summary]: [None] when the element-summary request throws, else its
    [fixtures] field ([None]: absent); [players]: [None] when
    [getPlayers()] throws; [bootstrap]: [None] when the request throws,
    else its [teams] field ([None]: absent, so [teams.find] throws);
    [strengths]/[cacheTeams]: as for [calculateFixtureDifficulty]. *)
Definition getPlayerUpcomingFixtures (strengths : option StrengthMap)
    (cacheTeams : list FPLTeam) (summary : option (option (list SummaryFixture)))
    (players : option (list PlayerTeamRef)) (bootstrap : option (option (list FPLTeam)))
    (playerId : Z) (count : option Z) : list FD.t :=
  let count := match count with Some c => c | None => 5%Z end in
  match summary with
  | None => []
  | Some data =>
      let fixtures := match data with Some l => l | None => [] end in
      match players with
      | None => []
      | Some ps =>
          match find (fun p => Z.eqb (ref_id p) playerId) ps with
          | None => []
          | Some player =>
              match bootstrap with
              | None | Some None => []
              | Some (Some teams) =>
                  match find (fun t => String.eqb (name t) (ref_team player)) teams with
                  | None => []
                  | Some playerTeam =>
                      let upcomingFixtures :=
                        List.map (fun f =>
                          mkUpcoming (sf_event f)
                            (if Z.eqb (sf_team_h f) (id playerTeam) then sf_team_a f else sf_team_h f)
                            (match sf_is_home f with
                             | Some b => b
                             | None => Z.eqb (sf_team_h f) (id playerTeam)
                             end))
                          (slice0 (filter (fun f => negb (sf_finished f)) fixtures) count) in
                      match strengths with
                      | None => []
                      | Some ts => fst (calculateFixtureDifficulty ts cacheTeams upcomingFixtures)
                      end
                  end
              end
          end
      end
  end.

(** ** [RecommendationsService] (src/services/recommendationsService.ts) *)

Inductive BuyReason := trending_up | good_form.
Inductive SellReason := trending_down | declining_form.

(** The [UpcomingFixture] interface of this file. *)
Record RecUpcomingFixture := mkRecUpcoming {
  opponent_id : Z; is_home : bool; rec_gameweek : Z
}.

(** The fields of [Player] the service reads. *)
Record Player := mkPlayer { playerId : Z; playerName : string }.

Module CachedBuyRec.
Record t := mk {
  player_id : Z; buy_score : Q; breakout_score : Q; trend_ratio : Q;
  recent_xgi_per90 : Q; fixture_ease : Q;
  upcoming_fixtures : option (list RecUpcomingFixture); reason : BuyReason
}.
End CachedBuyRec.

Module CachedSellRec.
Record t := mk {
  player_id : Z; sell_score : Q; downfall_score : Q; trend_ratio : Q;
  recent_xgi_per90 : Q; season_xgi_per90 : Q; fixture_difficulty : Q;
  upcoming_fixtures : option (list RecUpcomingFixture); reason : SellReason
}.
End CachedSellRec.

Module BuyRecommendation.
Record t := mk {
  player : Player; buyScore : Q; breakoutScore : Q; trendRatio : Q;
  recentXGI : Q; fixtureEase : Q; upcomingFixtures : list RecUpcomingFixture;
  reason : BuyReason
}.
End BuyRecommendation.

Module SellRecommendation.
Record t := mk {
  player : Player; sellScore : Q; downfallScore : Q; trendRatio : Q;
  recentXGI : Q; seasonXGI : Q; fixtureDifficulty : Q;
  upcomingFixtures : list RecUpcomingFixture; reason : SellReason
}.
End SellRecommendation.

Record RecState := mkRecState {
  cachedBuy : option (list BuyRecommendation.t);
  cachedSell : option (list SellRecommendation.t);
  cacheTimestamp : Z
}.

Definition CACHE_TTL : Z := 5 * 60 * 1000.

Definition recInitial : RecState := mkRecState None None 0.

Definition clearCache (_ : RecState) : RecState := mkRecState None None 0.

(** [.map(...)] returning [null] for unknown players, then
    [.filter(p => p !== null)]. *)
Fixpoint mapDropNull {A B} (f : A -> option B) (l : list A) : list B :=
  match l with
  | [] => []
  | x :: r => match f x with Some y => y :: mapDropNull f r | None => mapDropNull f r end
  end.

Definition toBuy (playerMap : list (Z * Player)) (cached : CachedBuyRec.t)
    : option BuyRecommendation.t :=
  match map_get playerMap (CachedBuyRec.player_id cached) with
  | None => None
  | Some player =>
      Some (BuyRecommendation.mk player (CachedBuyRec.buy_score cached)
              (CachedBuyRec.breakout_score cached) (CachedBuyRec.trend_ratio cached)
              (CachedBuyRec.recent_xgi_per90 cached) (CachedBuyRec.fixture_ease cached)
              (match CachedBuyRec.upcoming_fixtures cached with Some l => l | None => [] end)
              (CachedBuyRec.reason cached))
  end.

Definition toSell (playerMap : list (Z * Player)) (cached : CachedSellRec.t)
    : option SellRecommendation.t :=
  match map_get playerMap (CachedSellRec.player_id cached) with
  | None => None
  | Some player =>
      Some (SellRecommendation.mk player (CachedSellRec.sell_score cached)
              (CachedSellRec.downfall_score cached) (CachedSellRec.trend_ratio cached)
              (CachedSellRec.recent_xgi_per90 cached) (CachedSellRec.season_xgi_per90 cached)
              (CachedSellRec.fixture_difficulty cached)
              (match CachedSellRec.upcoming_fixtures cached with Some l => l | None => [] end)
              (CachedSellRec.reason cached))
  end.

(** [new Map(allPlayers.map(p => [p.id, p]))]. *)
Definition playerMapOf (allPlayers : list Player) : list (Z * Player) :=
  fold_left (fun m p => map_set m (playerId p) p) allPlayers [].

(** [getRecommendations()] at time [now].  [response] is the backend
    answer ([None]: the request threw), with its [buy] and [sell] fields
    ([None]: absent); [allPlayers] the outcome of [dataService.getPlayers()]. *)
Definition getRecommendations (st : RecState) (now : Z)
    (response : option (option (list CachedBuyRec.t) * option (list CachedSellRec.t)))
    (allPlayers : option (list Player))
    : RecState * (list BuyRecommendation.t * list SellRecommendation.t) :=
  let fetch :=
    match response, allPlayers with
    | Some (buy, sell), Some players =>
        let playerMap := playerMapOf players in
        let buyRecs := mapDropNull (toBuy playerMap)
                         (match buy with Some l => l | None => [] end) in
        let sellRecs := mapDropNull (toSell playerMap)
                          (match sell with Some l => l | None => [] end) in
        (mkRecState (Some buyRecs) (Some sellRecs) now, (buyRecs, sellRecs))
    | _, _ => (st, ([], []))                       (* catch: empty lists *)
    end in
  match cachedBuy st, cachedSell st with
  | Some b, Some s => if Z.ltb (now - cacheTimestamp st) CACHE_TTL then (st, (b, s)) else fetch
  | _, _ => fetch
  end.

(** ** [FixtureDifficultyPage] (src/components/FixtureDifficulty.tsx) *)

Definition sumZ (xs : list Z) : Z := fold_left Z.add xs 0%Z.

(** [teamAverages] for one team: the mean attack and defense bucket of its
    first [maxFixtures] ratings, [(0, 0)] when there are none. *)
Definition teamAverage (fixtures : list FD.t) (maxFixtures : Z) : Q * Q :=
  let nextFixtures := slice0 fixtures maxFixtures in
  match nextFixtures with
  | [] => (0, 0)
  | _ =>
      let n := inject_Z (Z.of_nat (List.length nextFixtures)) in
      (inject_Z (sumZ (List.map FD.attackDifficulty nextFixtures)) / n,
       inject_Z (sumZ (List.map FD.defenseDifficulty nextFixtures)) / n)
  end.

(** [Math.round]: the nearest integer, halves rounded up. *)
Definition jsRound (x : Q) : Z := Qfloor (x + (1 # 2)).

(** The number shown in a gameweek cell. *)
Definition avgDifficulty (fixture : FD.t) : Z :=
  jsRound (inject_Z (FD.attackDifficulty fixture + FD.defenseDifficulty fixture) / 2).

(** A [Set<number>] filled in iteration order: first occurrences kept. *)
Fixpoint setAddAll (acc : list Z) (xs : list Z) : list Z :=
  match xs with
  | [] => acc
  | x :: r => setAddAll (if existsb (Z.eqb x) acc then acc else acc ++ [x]) r
  end.

(** [sort((a, b) => a - b)] on numbers. *)
Fixpoint insertZ (x : Z) (l : list Z) : list Z :=
  match l with
  | [] => [x]
  | y :: r => if Z.leb x y then x :: y :: r else y :: insertZ x r
  end.

Definition sortZ (l : list Z) : list Z := fold_right insertZ [] l.

(** [allGameweeks]: the gameweeks of every team's ratings, without
    repetition, ascending, cut to [maxFixtures]. *)
Definition allGameweeks (teamFixtures : list (list FD.t)) (maxFixtures : Z) : list Z :=
  let gameweeks := fold_left (fun acc fixtures => setAddAll acc (List.map FD.gameweek fixtures))
                     teamFixtures [] in
  slice0 (sortZ gameweeks) maxFixtures.

(** ** The spec's weighted composite, to compare with the source's two
    hardcoded sums: [raw = primary*w1 + context*w2 + homeAway*w3 + form*w4]. *)
Record Weights := mkWeights { w1 : Q; w2 : Q; w3 : Q; w4 : Q }.

Definition defaultWeights : Weights := mkWeights (70 # 100) (20 # 100) (5 # 100) (5 # 100).

Definition compositeRaw (w : Weights) (primary context homeAway form : Q) : Q :=
  primary * w1 w + context * w2 w + homeAway * w3 w + form * w4 w.

(** ** Sample league used by the concrete checks *)

Definition sampleStrength (k : Z) (nm : string) (x : Q) : TeamStrength :=
  mkTeamStrength k nm x x x x x x x x x x x x 0 0 x.

Definition sampleStrengths : StrengthMap :=
  [(1%Z, sampleStrength 1 "Arsenal" 1); (2%Z, sampleStrength 2 "Chelsea" 2);
   (3%Z, sampleStrength 3 "Fulham" 3)]%string.

Definition sampleTeams : list FPLTeam :=
  [mkFPLTeam 1 "Arsenal"; mkFPLTeam 2 "Chelsea"; mkFPLTeam 3 "Fulham";
   mkFPLTeam 4 "Everton"]%string.

(** Six unfinished fixtures of team 1, listed out of gameweek order. *)
Definition sampleFixtures : list FPLFixture :=
  [mkFPLFixture 6 1 2 false; mkFPLFixture 2 3 1 false; mkFPLFixture 1 1 2 true;
   mkFPLFixture 3 1 3 false; mkFPLFixture 5 2 1 false; mkFPLFixture 4 1 3 false;
   mkFPLFixture 7 3 1 false]%Z.

Definition sampleUnderstat (k : Z) (nm : string) : UnderstatTeam :=
  mkUnderstatTeam k nm 1 1 1 1 1 1 1 1 1 1 1 1 0 0 0.

(** Fixtures handed to [calculateFixtureDifficulty]: team 9 has no
    strength entry. *)
Definition sampleUpcoming : list UpcomingFixture :=
  [mkUpcoming 1 2 true; mkUpcoming 2 9 false; mkUpcoming 3 3 false]%Z.

Definition noRating : FD.t := FD.mk 0 0 "" false 0 0 0 0.

Ltac destruct_lookup :=
  lazymatch goal with
  | |- context [match ?e with Some _ => map_set _ _ _ | None => _ end] => destruct e
  end.

Definition isCleanup (te : Z * cacheEvent) : bool :=
  match snd te with ECleanup => true | _ => false end.

Definition idleBit (s : Svc) : nat :=
  match calculatingTeamStrengths s with None => 1 | Some _ => 0 end.

(** No usable cache: either list missing, or the stamp is [CACHE_TTL] old. *)
Definition recCacheMiss (st : RecState) (now : Z) : Prop :=
  cachedBuy st = None \/ cachedSell st = None \/ (CACHE_TTL <= now - cacheTimestamp st)%Z.

(** The sample backend answer: player 10 exists, player 99 does not. *)
Definition sampleBuy (pid : Z) : CachedBuyRec.t :=
  CachedBuyRec.mk pid 1 1 1 1 1 None good_form.
Definition sampleSell (pid : Z) : CachedSellRec.t :=
  CachedSellRec.mk pid 1 1 1 1 1 1 None declining_form.
Definition samplePlayers : list Player :=
  [mkPlayer 10 "Saka"; mkPlayer 11 "Salah"]%Z.

Definition sampleSummary : list SummaryFixture :=
  [mkSummaryFixture 1 1 2 true None; mkSummaryFixture 2 3 1 false (Some false);
   mkSummaryFixture 3 1 2 false None]%Z.

Definition sampleRefs : list PlayerTeamRef := [mkPlayerTeamRef 10 "Arsenal"]%Z.

(** ** Theorems *)

(** Scaling and bucketing on concrete values. *)
Example scale_mid : scaleTo100 (3 # 2) 1 2 == 50.
Proof. reflexivity. Qed.

Example bucket_samples : List.map scaleToDifficulty [0; 20; 2001 # 100; 40; 60; 80; 8001 # 100; 100]
  = [1; 1; 2; 2; 3; 4; 5; 5]%Z.
Proof. reflexivity. Qed.

(** C3: the 1-5 bucket of a raw composite is 1 up to 20, 2 up to 40, 3 up
    to 60, 4 up to 80 and 5 above, each boundary in the lower bucket; in
    particular 20 -> 1, 20.01 -> 2, 40 -> 2, 60 -> 3, 80 -> 4, 80.01 -> 5,
    100 -> 5 and 0 -> 1. *)
Theorem scaleToDifficulty_buckets : forall raw : Q,
  (raw <= 20 -> scaleToDifficulty raw = 1%Z) /\
  (20 < raw -> raw <= 40 -> scaleToDifficulty raw = 2%Z) /\
  (40 < raw -> raw <= 60 -> scaleToDifficulty raw = 3%Z) /\
  (60 < raw -> raw <= 80 -> scaleToDifficulty raw = 4%Z) /\
  (80 < raw -> scaleToDifficulty raw = 5%Z) /\
  scaleToDifficulty 20 = 1%Z /\ scaleToDifficulty (2001 # 100) = 2%Z /\
  scaleToDifficulty 40 = 2%Z /\ scaleToDifficulty 60 = 3%Z /\
  scaleToDifficulty 80 = 4%Z /\ scaleToDifficulty (8001 # 100) = 5%Z /\
  scaleToDifficulty 100 = 5%Z /\ scaleToDifficulty 0 = 1%Z.
Proof.
  intro raw; unfold scaleToDifficulty.
  repeat split; intros; try reflexivity;
    destruct (Qle_bool raw 20) eqn:E1; try reflexivity;
    destruct (Qle_bool raw 40) eqn:E2; try reflexivity;
    destruct (Qle_bool raw 60) eqn:E3; try reflexivity;
    destruct (Qle_bool raw 80) eqn:E4; try reflexivity;
    repeat match goal with
           | E : Qle_bool _ _ = true |- _ => apply Qle_bool_iff in E
           | E : Qle_bool _ _ = false |- _ =>
               apply not_true_iff_false in E; rewrite Qle_bool_iff in E
           end; lra.
Qed.

Lemma scaleToDifficulty_buckets_witness :
  scaleToDifficulty (30 # 1) = 2%Z.
Proof.
  destruct (scaleToDifficulty_buckets (30 # 1)) as (_ & H2 & _).
  apply H2; vm_compute; congruence.
Defined.

Lemma Qeq_bool_false_lt : forall mn mx : Q, mn < mx -> Qeq_bool mx mn = false.
Proof.
  intros mn mx H; apply not_true_iff_false; rewrite Qeq_bool_iff; lra.
Qed.

(** C8 (as stated): refuted in the program's arithmetic.  With
    [v = 0.1], [min = 0] and [max = 0.4] (so [min < max]), JS computes
    [scaleTo100Inverted] as 75.00000000000001 and [100 - scaleTo100] as
    75: the complement is not exact in doubles. *)
Lemma scaleTo100_complement_double_counterexample :
  PrimFloat.ltb 0%float 0.4%float = true /\
  F64.scaleTo100Inverted 0.1 0 0.4 = 75.00000000000001%float /\
  (100 - F64.scaleTo100 0.1 0 0.4)%float = 75%float /\
  F64.scaleTo100Inverted 0.1 0 0.4 <> (100 - F64.scaleTo100 0.1 0 0.4)%float.
Proof.
  split; [reflexivity|]; split; [reflexivity|]; split; [reflexivity|].
  intro H.
  assert (E : PrimFloat.eqb (F64.scaleTo100Inverted 0.1 0 0.4)
                            (100 - F64.scaleTo100 0.1 0 0.4)%float = true)
    by (rewrite H; vm_compute; reflexivity).
  vm_compute in E; discriminate.
Qed.

(** C8 (amended): when [max === min] both scales return exactly 50 for
    every value, in the program's doubles; for [min < max] the inverted
    scale is [100 - scaleTo100] in exact arithmetic only (the doubles may
    differ in the last place, see the counterexample). *)
Theorem scaleTo100_complement_amended :
  (forall v mn mx : float, PrimFloat.eqb mx mn = true ->
     F64.scaleTo100 v mn mx = 50%float /\ F64.scaleTo100Inverted v mn mx = 50%float) /\
  (forall v mn mx : Q, mn < mx -> scaleTo100Inverted v mn mx == 100 - scaleTo100 v mn mx).
Proof.
  split.
  - intros v mn mx E; unfold F64.scaleTo100, F64.scaleTo100Inverted; rewrite E.
    split; reflexivity.
  - intros v mn mx H; unfold scaleTo100, scaleTo100Inverted.
    rewrite (Qeq_bool_false_lt _ _ H).
    field; intro E; lra.
Qed.

Lemma scaleTo100_complement_amended_witness :
  F64.scaleTo100Inverted 7 5 5 = 50%float /\ scaleTo100Inverted 1 0 4 == 100 - scaleTo100 1 0 4.
Proof.
  split.
  - apply (proj1 scaleTo100_complement_amended 7%float 5%float 5%float); reflexivity.
  - apply (proj2 scaleTo100_complement_amended 1 0 4); vm_compute; congruence.
Defined.

(** Each rating pushed by [scoreLoop] comes from one of its fixtures, whose
    opponent is in the map and in the bootstrap teams, and is computed from
    that fixture's scaled signals. *)
Lemma scoreLoop_origin : forall ts b teams fs d,
  In d (fst (scoreLoop ts b teams fs)) ->
  exists f s t, In f fs /\ map_get ts (opponentTeamId f) = Some s /\
    findTeam teams (opponentTeamId f) = Some t /\
    let sc := scaledSignals b f s in
    d = FD.mk (gameweek f) (opponentTeamId f) (name t) (isHome f)
          (scaleToDifficulty (attackDifficultyRawOf sc))
          (scaleToDifficulty (defenseDifficultyRawOf sc))
          (attackDifficultyRawOf sc) (defenseDifficultyRawOf sc).
Proof.
  intros ts b teams fs d; induction fs as [|f rest IH]; simpl; [tauto|].
  destruct (scoreLoop ts b teams rest) as [ds ws] eqn:Erest; simpl in IH.
  unfold scoreFixture.
  destruct (map_get ts (opponentTeamId f)) as [s|] eqn:Es; simpl;
    [destruct (findTeam teams (opponentTeamId f)) as [t|] eqn:Et; simpl|].
  - intros [<-|Hin].
    + exists f, s, t; repeat split; auto.
    + destruct (IH Hin) as (f' & s' & t' & H); exists f', s', t'; tauto.
  - intro Hin; destruct (IH Hin) as (f' & s' & t' & H); exists f', s', t'; tauto.
  - intro Hin; destruct (IH Hin) as (f' & s' & t' & H); exists f', s', t'; tauto.
Qed.

(** C1: every rating returned by [calculateFixtureDifficulty] has
    [attackDifficultyRaw] equal to the composite with the opponent's scaled
    defense as primary term and its scaled attack as context term under the
    default weights 0.70, 0.20, 0.05, 0.05, which sum to 1. *)
Theorem attackDifficultyRaw_composite : forall ts teams fs d,
  In d (fst (calculateFixtureDifficulty ts teams fs)) ->
  exists f s, In f fs /\ map_get ts (opponentTeamId f) = Some s /\
    let sc := scaledSignals (computeBounds ts) f s in
    FD.attackDifficultyRaw d =
      compositeRaw defaultWeights (defenseRatingScaled sc) (attackRatingScaled sc)
        (homeAwayFactorScaled sc) (formFactorScaled sc) /\
    w1 defaultWeights + w2 defaultWeights + w3 defaultWeights + w4 defaultWeights == 1.
Proof.
  intros ts teams fs d Hin.
  destruct (scoreLoop_origin _ _ _ _ _ Hin) as (f & s & t & Hf & Hs & Ht & Hd).
  exists f, s; repeat split; auto.
  rewrite Hd; reflexivity.
Qed.

Lemma attackDifficultyRaw_composite_witness :
  let ds := fst (calculateFixtureDifficulty sampleStrengths sampleTeams sampleUpcoming) in
  exists d f s, In d ds /\ In f sampleUpcoming /\
    map_get sampleStrengths (opponentTeamId f) = Some s /\
    let sc := scaledSignals (computeBounds sampleStrengths) f s in
    FD.attackDifficultyRaw d =
      compositeRaw defaultWeights (defenseRatingScaled sc) (attackRatingScaled sc)
        (homeAwayFactorScaled sc) (formFactorScaled sc).
Proof.
  intro ds.
  assert (Hin : In (hd noRating ds) ds) by (vm_compute; left; reflexivity).
  destruct (attackDifficultyRaw_composite _ _ _ _ Hin) as (f & s & Hf & Hs & Hd & _).
  exists (hd noRating ds), f, s; auto.
Defined.

(** C2: defense difficulty mirrors attack difficulty: it is the attack
    composite applied to the scaled signals with opponent attack and
    opponent defense swapped, every returned rating has its defense raw as
    the composite with the scaled attack primary and the scaled defense as
    context (home/away and form terms unchanged), and it is not a function
    of the attack raw value (two signal sets with equal attack raw have
    different defense raw). *)
Theorem defenseDifficultyRaw_mirror :
  (forall sc : Scaled,
     defenseDifficultyRawOf sc =
     attackDifficultyRawOf (mkScaled (defenseRatingScaled sc) (attackRatingScaled sc)
                              (homeAwayFactorScaled sc) (formFactorScaled sc))) /\
  (forall ts teams fs d,
     In d (fst (calculateFixtureDifficulty ts teams fs)) ->
     exists f s, In f fs /\ map_get ts (opponentTeamId f) = Some s /\
       let sc := scaledSignals (computeBounds ts) f s in
       FD.defenseDifficultyRaw d =
         compositeRaw defaultWeights (attackRatingScaled sc) (defenseRatingScaled sc)
           (homeAwayFactorScaled sc) (formFactorScaled sc) /\
       FD.attackDifficultyRaw d =
         compositeRaw defaultWeights (defenseRatingScaled sc) (attackRatingScaled sc)
           (homeAwayFactorScaled sc) (formFactorScaled sc)) /\
  (exists sc1 sc2 : Scaled,
     attackDifficultyRawOf sc1 == attackDifficultyRawOf sc2 /\
     ~ defenseDifficultyRawOf sc1 == defenseDifficultyRawOf sc2).
Proof.
  split; [|split].
  - intro sc; reflexivity.
  - intros ts teams fs d Hin.
    destruct (scoreLoop_origin _ _ _ _ _ Hin) as (f & s & t & Hf & Hs & Ht & Hd).
    exists f, s; repeat split; auto; rewrite Hd; reflexivity.
  - exists (mkScaled 0 100 50 50), (mkScaled 35 90 50 50); split.
    + vm_compute; reflexivity.
    + vm_compute; discriminate.
Qed.

Lemma defenseDifficultyRaw_mirror_witness :
  let ds := fst (calculateFixtureDifficulty sampleStrengths sampleTeams sampleUpcoming) in
  exists d f s, In d ds /\ In f sampleUpcoming /\
    map_get sampleStrengths (opponentTeamId f) = Some s /\
    let sc := scaledSignals (computeBounds sampleStrengths) f s in
    FD.defenseDifficultyRaw d =
      compositeRaw defaultWeights (attackRatingScaled sc) (defenseRatingScaled sc)
        (homeAwayFactorScaled sc) (formFactorScaled sc).
Proof.
  intro ds.
  assert (Hin : In (hd noRating ds) ds) by (vm_compute; left; reflexivity).
  destruct (proj1 (proj2 defenseDifficultyRaw_mirror) _ _ _ _ Hin)
    as (f & s & Hf & Hs & Hd & _).
  exists (hd noRating ds), f, s; auto.
Defined.

(** Bounds of the pools: [Math.min]/[Math.max] bracket every member. *)
Lemma fold_Qmin_le : forall r x,
  fold_left Qmin r x <= x /\ (forall y, In y r -> fold_left Qmin r x <= y).
Proof.
  induction r as [|a r IH]; intro x; simpl.
  - split; [apply Qle_refl | tauto].
  - destruct (IH (Qmin x a)) as [H1 H2]; split.
    + eapply Qle_trans; [exact H1 | apply Q.le_min_l].
    + intros y [<-|Hy]; [|auto].
      eapply Qle_trans; [exact H1 | apply Q.le_min_r].
Qed.

Lemma fold_Qmax_ge : forall r x,
  x <= fold_left Qmax r x /\ (forall y, In y r -> y <= fold_left Qmax r x).
Proof.
  induction r as [|a r IH]; intro x; simpl.
  - split; [apply Qle_refl | tauto].
  - destruct (IH (Qmax x a)) as [H1 H2]; split.
    + eapply Qle_trans; [apply Q.le_max_l | exact H1].
    + intros y [<-|Hy]; [|auto].
      eapply Qle_trans; [apply Q.le_max_r | exact H1].
Qed.

Lemma jsMin_jsMax_bracket : forall l y, In y l -> jsMin l <= y /\ y <= jsMax l.
Proof.
  intros [|x r] y Hy; [destruct Hy|]; simpl.
  destruct (fold_Qmin_le r x) as [A1 A2]; destruct (fold_Qmax_ge r x) as [B1 B2].
  destruct Hy as [<-|Hy]; auto.
Qed.

Lemma map_get_in_values : forall {A} (m : list (Z * A)) k v,
  map_get m k = Some v -> In v (map_values m).
Proof.
  induction m as [|[k' v'] r IH]; intros k v H; simpl in *; [discriminate|].
  destruct (Z.eqb k k'); [left; congruence | right; eauto].
Qed.

Lemma scaleTo100_range : forall v mn mx,
  mn <= v -> v <= mx -> 0 <= scaleTo100 v mn mx /\ scaleTo100 v mn mx <= 100.
Proof.
  intros v mn mx H1 H2; unfold scaleTo100.
  destruct (Qeq_bool mx mn) eqn:E; [split; vm_compute; discriminate|].
  assert (Hlt : 0 < mx - mn).
  { apply not_true_iff_false in E; rewrite Qeq_bool_iff in E; lra. }
  assert (A : 0 <= (v - mn) / (mx - mn)) by (apply Qle_shift_div_l; lra).
  assert (B : (v - mn) / (mx - mn) <= 1) by (apply Qle_shift_div_r; lra).
  lra.
Qed.

Lemma scaleTo100Inverted_range : forall v mn mx,
  mn <= v -> v <= mx -> 0 <= scaleTo100Inverted v mn mx /\ scaleTo100Inverted v mn mx <= 100.
Proof.
  intros v mn mx H1 H2; unfold scaleTo100Inverted.
  destruct (Qeq_bool mx mn) eqn:E; [split; vm_compute; discriminate|].
  assert (Hlt : 0 < mx - mn).
  { apply not_true_iff_false in E; rewrite Qeq_bool_iff in E; lra. }
  assert (A : 0 <= (mx - v) / (mx - mn)) by (apply Qle_shift_div_l; lra).
  assert (B : (mx - v) / (mx - mn) <= 1) by (apply Qle_shift_div_r; lra).
  lra.
Qed.

Lemma clamp_range : forall x, 0 <= Qmax 0 (Qmin 100 x) /\ Qmax 0 (Qmin 100 x) <= 100.
Proof.
  intro x; split; [apply Q.le_max_l|].
  apply Q.max_lub; [lra | apply Q.le_min_l].
Qed.

(** Every scaled signal of a fixture whose opponent is in the map lies in
    [0, 100]. *)
Lemma scaledSignals_range : forall ts f s,
  map_get ts (opponentTeamId f) = Some s ->
  let sc := scaledSignals (computeBounds ts) f s in
  (0 <= attackRatingScaled sc <= 100) /\ (0 <= defenseRatingScaled sc <= 100) /\
  (0 <= homeAwayFactorScaled sc <= 100) /\ (0 <= formFactorScaled sc <= 100).
Proof.
  intros ts f s Hs; apply map_get_in_values in Hs.
  assert (P : forall g : TeamStrength -> Q,
             jsMin (List.map g (map_values ts)) <= g s /\
             g s <= jsMax (List.map g (map_values ts)))
    by (intro g; apply jsMin_jsMax_bracket, in_map, Hs).
  unfold scaledSignals, computeBounds; cbn [attackRatingScaled defenseRatingScaled
    homeAwayFactorScaled formFactorScaled minHomeAttack maxHomeAttack minAwayAttack
    maxAwayAttack minHomeDefense maxHomeDefense minAwayDefense maxAwayDefense
    minForm maxForm].
  destruct (isHome f).
  - destruct (P awayAttackOf), (P awayDefenseOf), (P formFactor).
    repeat split;
      first [ apply scaleTo100_range; assumption
            | apply scaleTo100Inverted_range; assumption
            | apply clamp_range ].
  - destruct (P homeAttackOf), (P homeDefenseOf), (P formFactor).
    repeat split;
      first [ apply scaleTo100_range; assumption
            | apply scaleTo100Inverted_range; assumption
            | apply clamp_range ].
Qed.

(** C9: every rating returned by [calculateFixtureDifficulty] (exactly the
    fixtures whose opponent is in the strengths map) has its attack and
    defense raw composites in [0, 100]. *)
Theorem difficultyRaw_range : forall ts teams fs d,
  In d (fst (calculateFixtureDifficulty ts teams fs)) ->
  (0 <= FD.attackDifficultyRaw d <= 100) /\ (0 <= FD.defenseDifficultyRaw d <= 100).
Proof.
  intros ts teams fs d Hin.
  destruct (scoreLoop_origin _ _ _ _ _ Hin) as (f & s & t & Hf & Hs & Ht & Hd).
  rewrite Hd; cbn [FD.attackDifficultyRaw FD.defenseDifficultyRaw].
  destruct (scaledSignals_range ts f s Hs) as (A & D & H & F).
  unfold attackDifficultyRawOf, defenseDifficultyRawOf.
  lra.
Qed.

Lemma difficultyRaw_range_witness :
  let ds := fst (calculateFixtureDifficulty sampleStrengths sampleTeams sampleUpcoming) in
  In (hd noRating ds) ds /\
  (0 <= FD.attackDifficultyRaw (hd noRating ds) <= 100) /\
  (0 <= FD.defenseDifficultyRaw (hd noRating ds) <= 100).
Proof.
  intro ds.
  assert (Hin : In (hd noRating ds) ds) by (vm_compute; left; reflexivity).
  split; [exact Hin | exact (difficultyRaw_range _ _ _ _ Hin)].
Defined.

(** The loop treats each fixture on its own: it distributes over [++]. *)
Lemma scoreLoop_app : forall ts b teams l1 l2,
  scoreLoop ts b teams (l1 ++ l2) =
  (fst (scoreLoop ts b teams l1) ++ fst (scoreLoop ts b teams l2),
   snd (scoreLoop ts b teams l1) ++ snd (scoreLoop ts b teams l2)).
Proof.
  intros ts b teams l1 l2; induction l1 as [|f r IH]; simpl.
  - destruct (scoreLoop ts b teams l2); reflexivity.
  - rewrite IH; destruct (scoreLoop ts b teams r) as [ds ws]; simpl.
    destruct (scoreFixture ts b teams f) as [w|[d|]]; reflexivity.
Qed.

(** C10: a fixture whose opponent has no entry in the strengths map is
    skipped with a warning for that team: the ratings of a list containing
    it are those of the fixtures before and after it, and the call still
    returns normally. *)
Theorem unmapped_opponent_skipped : forall ts teams pre f post,
  map_get ts (opponentTeamId f) = None ->
  calculateFixtureDifficulty ts teams (pre ++ f :: post) =
  (fst (calculateFixtureDifficulty ts teams pre) ++
     fst (calculateFixtureDifficulty ts teams post),
   snd (calculateFixtureDifficulty ts teams pre) ++
     opponentTeamId f :: snd (calculateFixtureDifficulty ts teams post)).
Proof.
  intros ts teams pre f post Hnone; unfold calculateFixtureDifficulty.
  rewrite scoreLoop_app; simpl.
  destruct (scoreLoop ts (computeBounds ts) teams post) as [ds ws]; simpl.
  unfold scoreFixture; rewrite Hnone; reflexivity.
Qed.

Lemma unmapped_opponent_skipped_witness :
  map_get sampleStrengths 9 = None /\
  calculateFixtureDifficulty sampleStrengths sampleTeams sampleUpcoming =
  (fst (calculateFixtureDifficulty sampleStrengths sampleTeams [mkUpcoming 1 2 true]) ++
     fst (calculateFixtureDifficulty sampleStrengths sampleTeams [mkUpcoming 3 3 false]),
   snd (calculateFixtureDifficulty sampleStrengths sampleTeams [mkUpcoming 1 2 true]) ++
     9%Z :: snd (calculateFixtureDifficulty sampleStrengths sampleTeams [mkUpcoming 3 3 false])).
Proof.
  split; [reflexivity|].
  exact (unmapped_opponent_skipped sampleStrengths sampleTeams
           [mkUpcoming 1 2 true] (mkUpcoming 2 9 false) [mkUpcoming 3 3 false]
           eq_refl).
Defined.

(** *** Sortedness and membership through the selection pipeline *)

Section Ordered.
Context {A B : Type}.

Lemma ss_firstn : forall (R : A -> A -> Prop) n l,
  StronglySorted R l -> StronglySorted R (firstn n l).
Proof.
  intros R n; induction n as [|n IH]; intros [|x l] H; simpl; try constructor.
  - apply StronglySorted_inv in H as [H1 H2]; auto.
  - apply StronglySorted_inv in H as [H1 H2].
    rewrite Forall_forall in *; intros y Hy; apply H2.
    rewrite <- (firstn_skipn n l); apply in_or_app; left; exact Hy.
Qed.

Lemma in_firstn_in : forall n (l : list A) x, In x (firstn n l) -> In x l.
Proof.
  intros n l x Hx; rewrite <- (firstn_skipn n l); apply in_or_app; left; exact Hx.
Qed.

Lemma ss_map_rel : forall (R : A -> A -> Prop) (R' : B -> B -> Prop) (g : A -> B) l,
  (forall a b, R a b -> R' (g a) (g b)) ->
  StronglySorted R l -> StronglySorted R' (List.map g l).
Proof.
  intros R R' g l HR; induction l as [|x l IH]; intro H; simpl; constructor.
  - apply StronglySorted_inv in H as [H1 _]; auto.
  - apply StronglySorted_inv in H as [_ H2].
    rewrite Forall_forall in *; intros y Hy.
    apply in_map_iff in Hy as (z & <- & Hz); auto.
Qed.

End Ordered.

Definition eventLe (a b : FPLFixture) : Prop := (event a <= event b)%Z.

Lemma insertByEvent_in : forall x l y, In y (insertByEvent x l) -> y = x \/ In y l.
Proof.
  intros x l y; induction l as [|z r IH]; simpl.
  - intuition.
  - destruct (Z.leb (event x) (event z)); simpl; intuition.
Qed.

Lemma sortByEvent_in : forall l y, In y (sortByEvent l) -> In y l.
Proof.
  induction l as [|x r IH]; simpl; [tauto|].
  intros y Hy; apply insertByEvent_in in Hy as [->|Hy]; auto.
Qed.

Lemma insertByEvent_sorted : forall x l,
  StronglySorted eventLe l -> StronglySorted eventLe (insertByEvent x l).
Proof.
  intros x l; induction l as [|z r IH]; intro H; simpl.
  - repeat constructor.
  - apply StronglySorted_inv in H as [Hr Hz].
    destruct (Z.leb (event x) (event z)) eqn:E.
    + apply Z.leb_le in E.
      constructor; [constructor; assumption|].
      constructor; [exact E|].
      eapply Forall_impl; [|exact Hz]; intros a Ha; unfold eventLe in *; lia.
    + apply Z.leb_gt in E.
      constructor; [auto|].
      apply Forall_forall; intros y Hy.
      apply insertByEvent_in in Hy as [->|Hy].
      * unfold eventLe; lia.
      * rewrite Forall_forall in Hz; auto.
Qed.

Lemma sortByEvent_sorted : forall l, StronglySorted eventLe (sortByEvent l).
Proof.
  induction l as [|x r IH]; simpl; [constructor|].
  apply insertByEvent_sorted, IH.
Qed.

Lemma scoreLoop_length : forall ts b teams fs,
  (List.length (fst (scoreLoop ts b teams fs)) <= List.length fs)%nat.
Proof.
  intros ts b teams fs; induction fs as [|f r IH]; simpl; [lia|].
  destruct (scoreLoop ts b teams r) as [ds ws]; simpl in *.
  destruct (scoreFixture ts b teams f) as [w|[d|]]; simpl; lia.
Qed.

Lemma scoreLoop_sorted : forall ts b teams fs,
  StronglySorted (fun a c => (gameweek a <= gameweek c)%Z) fs ->
  StronglySorted (fun a c => (FD.gameweek a <= FD.gameweek c)%Z)
    (fst (scoreLoop ts b teams fs)).
Proof.
  intros ts b teams fs; induction fs as [|f r IH]; intro H; simpl; [constructor|].
  apply StronglySorted_inv in H as [Hr Hf].
  pose proof (IH Hr) as IHr.
  assert (Hall : Forall (fun c => (gameweek f <= FD.gameweek c)%Z)
                   (fst (scoreLoop ts b teams r))).
  { apply Forall_forall; intros c Hc.
    destruct (scoreLoop_origin _ _ _ _ _ Hc) as (g & s & t & Hg & _ & _ & ->).
    simpl; rewrite Forall_forall in Hf; apply Hf, Hg. }
  destruct (scoreLoop ts b teams r) as [ds ws]; simpl in *.
  unfold scoreFixture.
  destruct (map_get ts (opponentTeamId f)); [destruct (findTeam teams (opponentTeamId f))|];
    simpl; try assumption.
  constructor; assumption.
Qed.

Lemma insertByEvent_perm : forall x l, Permutation (insertByEvent x l) (x :: l).
Proof.
  intros x l; induction l as [|y r IH]; simpl; [reflexivity|].
  destruct (Z.leb (event x) (event y)); [reflexivity|].
  rewrite IH; apply perm_swap.
Qed.

Lemma sortByEvent_perm : forall l, Permutation (sortByEvent l) l.
Proof.
  induction l as [|x r IH]; simpl; [reflexivity|].
  rewrite insertByEvent_perm, IH; reflexivity.
Qed.

(** The ratings [scoreLoop] pushes are those of the fixtures whose
    opponent is both in the strengths map and among the bootstrap teams,
    in order, keeping each fixture's gameweek, opponent and venue. *)
Lemma scoreLoop_keys : forall ts b teams fs,
  List.map (fun d => (FD.gameweek d, FD.opponentTeamId d, FD.isHome d))
    (fst (scoreLoop ts b teams fs)) =
  List.map (fun u => (gameweek u, opponentTeamId u, isHome u))
    (filter (fun u => match map_get ts (opponentTeamId u), findTeam teams (opponentTeamId u) with
                      | Some _, Some _ => true
                      | _, _ => false
                      end) fs).
Proof.
  intros ts b teams fs; induction fs as [|f r IH]; simpl; [reflexivity|].
  destruct (scoreLoop ts b teams r) as [ds ws]; simpl in *.
  unfold scoreFixture.
  destruct (map_get ts (opponentTeamId f));
    [destruct (findTeam teams (opponentTeamId f))|]; simpl; congruence.
Qed.

Lemma filter_map_comm : forall {A B} (p : B -> bool) (g : A -> B) l,
  filter p (List.map g l) = List.map g (filter (fun x => p (g x)) l).
Proof.
  intros A B p g l; induction l as [|x r IH]; simpl; [reflexivity|].
  destruct (p (g x)); simpl; congruence.
Qed.

(** C7 (as stated, with the default horizon of 5): refuted.  Omitting the
    count on team 1 of the sample league, with six unfinished fixtures
    whose opponents are all mapped, returns six ratings. *)
Lemma getTeamUpcomingFixtures_default_not_5 :
  getTeamUpcomingFixtures (Some sampleStrengths) sampleTeams sampleFixtures 1 None =
  getTeamUpcomingFixtures (Some sampleStrengths) sampleTeams sampleFixtures 1 (Some 10%Z) /\
  List.map FD.gameweek
    (getTeamUpcomingFixtures (Some sampleStrengths) sampleTeams sampleFixtures 1 None) =
  [2; 3; 4; 5; 6; 7]%Z /\
  (5 < List.length
         (getTeamUpcomingFixtures (Some sampleStrengths) sampleTeams sampleFixtures 1 None))%nat.
Proof. vm_compute; repeat split; lia. Qed.

(** C7 (amended): [getTeamUpcomingFixtures(teamId, count)] with
    [count >= 0] takes [chosen], the first [count] of the team's unfinished
    fixtures once sorted by gameweek (the sort is a permutation of them and
    its result is ordered by gameweek), and returns, in that order, one
    rating for each chosen fixture whose opponent is rated and in the
    bootstrap teams, carrying that fixture's gameweek, opponent
    ([team_a] when the team is at home, else [team_h]) and venue.  So at
    most [count] ratings come back, in nondecreasing gameweek order; none
    when the strengths could not be computed; an omitted count is 10. *)
Theorem getTeamUpcomingFixtures_selection : forall strengths teams allFixtures teamId count,
  (0 <= count)%Z ->
  let pending := filter (fun f => negb (finished f) &&
                   (Z.eqb (team_h f) teamId || Z.eqb (team_a f) teamId)) allFixtures in
  let chosen := firstn (Z.to_nat count) (sortByEvent pending) in
  let out := getTeamUpcomingFixtures strengths teams allFixtures teamId (Some count) in
  Permutation (sortByEvent pending) pending /\
  StronglySorted eventLe (sortByEvent pending) /\
  (forall ts, strengths = Some ts ->
     List.map (fun d => (FD.gameweek d, FD.opponentTeamId d, FD.isHome d)) out =
     List.map (fun f => (event f, if Z.eqb (team_h f) teamId then team_a f else team_h f,
                         Z.eqb (team_h f) teamId))
       (filter (fun f =>
                  let opp := if Z.eqb (team_h f) teamId then team_a f else team_h f in
                  match map_get ts opp, findTeam teams opp with
                  | Some _, Some _ => true
                  | _, _ => false
                  end) chosen)) /\
  (strengths = None -> out = []) /\
  (Z.of_nat (List.length out) <= count)%Z /\
  StronglySorted Z.le (List.map FD.gameweek out) /\
  getTeamUpcomingFixtures strengths teams allFixtures teamId None =
  getTeamUpcomingFixtures strengths teams allFixtures teamId (Some 10%Z).
Proof.
  intros strengths teams allFixtures teamId count Hc pending chosen out.
  assert (Hsel : selectTeamFixtures allFixtures teamId count =
                 List.map (fun f => mkUpcoming (event f)
                             (if Z.eqb (team_h f) teamId then team_a f else team_h f)
                             (Z.eqb (team_h f) teamId)) chosen).
  { unfold selectTeamFixtures, chosen, pending, slice0.
    apply Z.leb_le in Hc; rewrite Hc; reflexivity. }
  set (sel := selectTeamFixtures allFixtures teamId count) in Hsel.
  assert (Hout : out = match strengths with
                       | None => []
                       | Some ts => fst (scoreLoop ts (computeBounds ts) teams sel)
                       end) by reflexivity.
  clearbody out.
  assert (Hlen : (List.length sel <= Z.to_nat count)%nat).
  { rewrite Hsel, length_map; apply firstn_le_length. }
  assert (Hsorted : StronglySorted (fun a c => (gameweek a <= gameweek c)%Z) sel).
  { rewrite Hsel; eapply ss_map_rel; [|apply ss_firstn, sortByEvent_sorted].
    intros a c H; exact H. }
  split; [apply sortByEvent_perm|].
  split; [apply sortByEvent_sorted|].
  split.
  { intros ts -> ; rewrite Hout, scoreLoop_keys, Hsel, filter_map_comm, map_map.
    reflexivity. }
  split; [intros ->; exact Hout|].
  destruct strengths as [ts|]; rewrite Hout.
  - split; [|split; [|reflexivity]].
    + pose proof (scoreLoop_length ts (computeBounds ts) teams sel) as L.
      rewrite <- (Z2Nat.id count Hc); apply Nat2Z.inj_le; lia.
    + eapply ss_map_rel; [|apply scoreLoop_sorted, Hsorted]; intros a c H; exact H.
  - repeat split; [simpl; lia | constructor].
Qed.

Lemma getTeamUpcomingFixtures_selection_witness :
  (0 <= 5)%Z /\
  (Z.of_nat (List.length
     (getTeamUpcomingFixtures (Some sampleStrengths) sampleTeams sampleFixtures 1 (Some 5%Z)))
   <= 5)%Z.
Proof.
  split; [lia|].
  exact (proj1 (proj2 (proj2 (proj2 (proj2 (getTeamUpcomingFixtures_selection
                  (Some sampleStrengths) sampleTeams sampleFixtures 1 5 ltac:(lia))))))).
Defined.

(** *** The promise-sharing cache *)

Lemma run_calls_inflight : forall s p times rest,
  teamStrengths s = [] -> calculatingTeamStrengths s = Some p ->
  run s (calls times ++ rest) =
  (fst (run s rest), repeat (RPromise p) (List.length times) ++ snd (run s rest)).
Proof.
  intros s p times rest Hs Hc; induction times as [|t r IH]; simpl.
  - destruct (run s rest); reflexivity.
  - destruct s as [st calc cc sett]; simpl in *; subst.
    rewrite IH; reflexivity.
Qed.

Lemma run_calls_ready : forall s times,
  teamStrengths s <> [] ->
  run s (calls times) = (s, repeat (RValue (teamStrengths s)) (List.length times)).
Proof.
  intros s times Hs; induction times as [|t r IH]; simpl; [reflexivity|].
  destruct s as [[|e st] calc cc sett]; simpl in *; [congruence|].
  rewrite IH; reflexivity.
Qed.

Lemma settledOf_head : forall p r l, settledOf ((p, r) :: l) p = Some r.
Proof. intros p r l; simpl; rewrite Nat.eqb_refl; reflexivity. Qed.

Lemma resultOf_settled_head : forall st c n p r l,
  resultOf (mkSvc (match r with Some m => m | None => st end) c n ((p, r) :: l)) (RPromise p)
  = Some r.
Proof. intros st c n p [m|] l; simpl; rewrite Nat.eqb_refl; reflexivity. Qed.

(** C4: from an empty cache, a burst of calls that all arrive before the
    computation settles starts exactly one computation, and every caller
    obtains the one outcome of that computation. *)
Theorem single_flight : forall s0 t0 times tsettle u b,
  teamStrengths s0 = [] -> calculatingTeamStrengths s0 = None ->
  settledOf (settled s0) (computeCount s0) = None ->
  let '(s, rs) := run s0 (calls (t0 :: times) ++ [(tsettle, ESettle u b)]) in
  computeCount s = S (computeCount s0) /\
  List.length rs = S (List.length times) /\
  Forall (fun r => resultOf s r = Some (_calculateTeamStrengths u b [])) rs.
Proof.
  intros [st calc cc sett] t0 times tsettle u b Hs Hc Hfresh; simpl in *; subst.
  rewrite (run_calls_inflight (mkSvc [] (Some cc) (S cc) sett) cc) by reflexivity.
  simpl; rewrite Hfresh; simpl.
  repeat split.
  - rewrite app_nil_r, repeat_length; reflexivity.
  - rewrite app_nil_r; constructor; [apply resultOf_settled_head|].
    apply Forall_forall; intros r Hr; apply repeat_spec in Hr; subst r.
    apply resultOf_settled_head.
Qed.

Lemma single_flight_witness :
  let '(s, rs) := run emptySvc (calls [0; 1; 2]%Z ++ [(3%Z, ESettle None None)]) in
  computeCount s = 1%nat /\ List.length rs = 3%nat /\
  Forall (fun r => resultOf s r = Some (_calculateTeamStrengths None None [])) rs.
Proof.
  exact (single_flight emptySvc 0 [1; 2]%Z 3 None None eq_refl eq_refl eq_refl).
Defined.

(** C5: when the shared computation fails, every caller that joined it
    (before or after the failure, until the first caller resumes) gets the
    error, nothing is stored, the in-flight handle is cleared, and the
    next call starts a new computation. *)
Theorem failure_clears_inflight : forall s0 t0 times tsettle late tclean u b,
  teamStrengths s0 = [] -> calculatingTeamStrengths s0 = None ->
  settledOf (settled s0) (computeCount s0) = None ->
  _calculateTeamStrengths u b [] = None ->
  let '(s, rs) := run s0 (calls (t0 :: times) ++ (tsettle, ESettle u b) ::
                            calls late ++ [(tclean, ECleanup)]) in
  teamStrengths s = [] /\ calculatingTeamStrengths s = None /\
  List.length rs = S (List.length times + List.length late) /\
  Forall (fun r => resultOf s r = Some None) rs /\
  step s ECall = (mkSvc [] (Some (computeCount s)) (S (computeCount s)) (settled s),
                  Some (RPromise (computeCount s))).
Proof.
  intros [st calc cc sett] t0 times tsettle late tclean u b Hs Hc Hfresh Hfail;
    simpl in *; subst.
  rewrite (run_calls_inflight (mkSvc [] (Some cc) (S cc) sett) cc) by reflexivity.
  simpl; rewrite Hfresh, Hfail; simpl.
  rewrite (run_calls_inflight (mkSvc [] (Some cc) (S cc) ((cc, None) :: sett)) cc)
    by reflexivity.
  simpl; rewrite Nat.eqb_refl; simpl.
  assert (Hall : Forall (fun r => r = RPromise cc)
                   (RPromise cc :: repeat (RPromise cc) (List.length times) ++
                    repeat (RPromise cc) (List.length late) ++ [])).
  { rewrite app_nil_r; constructor; [reflexivity|].
    apply Forall_forall; intros r Hr; apply in_app_or in Hr as [Hr|Hr];
      apply repeat_spec in Hr; exact Hr. }
  repeat split.
  - simpl; rewrite app_nil_r, length_app, !repeat_length; reflexivity.
  - eapply Forall_impl; [|exact Hall]; intros r ->; simpl; rewrite Nat.eqb_refl; reflexivity.
Qed.

Lemma failure_clears_inflight_witness :
  let '(s, rs) := run emptySvc (calls [0; 1]%Z ++ (2%Z, ESettle None None) ::
                                  calls [3]%Z ++ [(4%Z, ECleanup)]) in
  teamStrengths s = [] /\ calculatingTeamStrengths s = None /\
  List.length rs = 3%nat /\
  Forall (fun r => resultOf s r = Some None) rs /\
  step s ECall = (mkSvc [] (Some (computeCount s)) (S (computeCount s)) (settled s),
                  Some (RPromise (computeCount s))).
Proof.
  exact (failure_clears_inflight emptySvc 0 [1]%Z 2 [3]%Z 4 None None
           eq_refl eq_refl eq_refl eq_refl).
Defined.

(** C6 (as stated, with lazy expiry after a ttl): refuted.  With a ttl of
    five minutes (300000 ms), a map stored at t = 1000 is still returned,
    without a second computation, by a call at t = 301001. *)
Lemma cache_no_ttl_counterexample :
  let tr := [(0%Z, ECall);
             (1000%Z, ESettle (Some [sampleUnderstat 1 "Arsenal"%string]) (Some sampleTeams));
             (1001%Z, ECleanup);
             ((1000 + 300000 + 1)%Z, ECall)] in
  let '(s, rs) := run emptySvc tr in
  teamStrengths s <> [] /\ computeCount s = 1%nat /\
  rs = [RPromise 0; RValue (teamStrengths s)].
Proof. vm_compute; split; [discriminate | split; reflexivity]. Qed.

(** C6 (amended): the cache has no time-based invalidation.  Once a map
    with at least one team is stored, every later call, whenever it comes,
    returns that map and leaves the state unchanged (no new computation). *)
Theorem cache_ready_is_permanent : forall s times,
  teamStrengths s <> [] ->
  run s (calls times) = (s, repeat (RValue (teamStrengths s)) (List.length times)) /\
  computeCount (fst (run s (calls times))) = computeCount s.
Proof.
  intros s times Hs; rewrite (run_calls_ready s times Hs); split; reflexivity.
Qed.

Lemma cache_ready_is_permanent_witness :
  let s := mkSvc sampleStrengths None 1 [(0%nat, Some sampleStrengths)] in
  run s (calls [5; 1000000000]%Z) = (s, [RValue sampleStrengths; RValue sampleStrengths]) /\
  computeCount (fst (run s (calls [5; 1000000000]%Z))) = 1%nat.
Proof.
  exact (cache_ready_is_permanent (mkSvc sampleStrengths None 1 [(0%nat, Some sampleStrengths)])
           [5; 1000000000]%Z ltac:(discriminate)).
Defined.

(** ** Further properties of the service and its callers *)

(** [scaleTo100] never decreases as the value grows (for [min <= max]). *)
Theorem scaleTo100_monotone : forall v1 v2 mn mx,
  mn <= mx -> v1 <= v2 -> scaleTo100 v1 mn mx <= scaleTo100 v2 mn mx.
Proof.
  intros v1 v2 mn mx Hm Hv; unfold scaleTo100.
  destruct (Qeq_bool mx mn) eqn:E; [apply Qle_refl|].
  assert (Hlt : 0 < mx - mn).
  { apply not_true_iff_false in E; rewrite Qeq_bool_iff in E; lra. }
  apply Qmult_le_r; [lra|].
  unfold Qdiv; apply Qmult_le_r; [apply Qinv_lt_0_compat; exact Hlt | lra].
Qed.

Lemma scaleTo100_monotone_witness : scaleTo100 1 0 4 <= scaleTo100 3 0 4.
Proof. apply scaleTo100_monotone; vm_compute; congruence. Defined.

(** The end points of the pools map to the ends of the scale: the minimum
    to 0 and the maximum to 100 ([scaleTo100]), the other way round for
    [scaleTo100Inverted]. *)
Theorem scale_endpoints : forall mn mx, mn < mx ->
  scaleTo100 mn mn mx == 0 /\ scaleTo100 mx mn mx == 100 /\
  scaleTo100Inverted mn mn mx == 100 /\ scaleTo100Inverted mx mn mx == 0.
Proof.
  intros mn mx H; unfold scaleTo100, scaleTo100Inverted.
  rewrite (Qeq_bool_false_lt _ _ H).
  repeat split; field; intro E; lra.
Qed.

Lemma scale_endpoints_witness :
  scaleTo100 (1 # 2) (1 # 2) 2 == 0 /\ scaleTo100Inverted (1 # 2) (1 # 2) 2 == 100.
Proof.
  destruct (scale_endpoints (1 # 2) 2 ltac:(vm_compute; reflexivity)) as (A & _ & C & _).
  split; assumption.
Defined.

Lemma scaleToDifficulty_range : forall r, (1 <= scaleToDifficulty r <= 5)%Z.
Proof.
  intro r; unfold scaleToDifficulty.
  destruct (Qle_bool r 20), (Qle_bool r 40), (Qle_bool r 60), (Qle_bool r 80); lia.
Qed.

(** Every returned rating is consistent: its buckets are the buckets of its
    raw scores and lie in 1..5, and its gameweek, opponent id and venue are
    those of an input fixture whose opponent's name it carries. *)
Theorem rating_consistent : forall ts teams fs d,
  In d (fst (calculateFixtureDifficulty ts teams fs)) ->
  FD.attackDifficulty d = scaleToDifficulty (FD.attackDifficultyRaw d) /\
  FD.defenseDifficulty d = scaleToDifficulty (FD.defenseDifficultyRaw d) /\
  (1 <= FD.attackDifficulty d <= 5)%Z /\ (1 <= FD.defenseDifficulty d <= 5)%Z /\
  exists f t, In f fs /\ findTeam teams (opponentTeamId f) = Some t /\
    FD.gameweek d = gameweek f /\ FD.opponentTeamId d = opponentTeamId f /\
    FD.isHome d = isHome f /\ FD.opponentTeamName d = name t.
Proof.
  intros ts teams fs d Hin.
  destruct (scoreLoop_origin _ _ _ _ _ Hin) as (f & s & t & Hf & Hs & Ht & ->).
  simpl; repeat split; try apply scaleToDifficulty_range.
  exists f, t; repeat split; auto.
Qed.

Lemma rating_consistent_witness :
  let ds := fst (calculateFixtureDifficulty sampleStrengths sampleTeams sampleUpcoming) in
  (1 <= FD.attackDifficulty (hd noRating ds) <= 5)%Z.
Proof.
  intro ds.
  assert (Hin : In (hd noRating ds) ds) by (vm_compute; left; reflexivity).
  exact (proj1 (proj2 (proj2 (rating_consistent _ _ _ _ Hin)))).
Defined.

(** A fixture whose opponent has strengths but is missing from the
    bootstrap teams is dropped without a warning. *)
Theorem unknown_bootstrap_team_skipped_silently : forall ts teams pre f post s,
  map_get ts (opponentTeamId f) = Some s -> findTeam teams (opponentTeamId f) = None ->
  calculateFixtureDifficulty ts teams (pre ++ f :: post) =
  (fst (calculateFixtureDifficulty ts teams pre) ++ fst (calculateFixtureDifficulty ts teams post),
   snd (calculateFixtureDifficulty ts teams pre) ++ snd (calculateFixtureDifficulty ts teams post)).
Proof.
  intros ts teams pre f post s Hs Ht; unfold calculateFixtureDifficulty.
  rewrite scoreLoop_app; simpl.
  destruct (scoreLoop ts (computeBounds ts) teams post) as [ds ws]; simpl.
  unfold scoreFixture; rewrite Hs, Ht; reflexivity.
Qed.

Lemma unknown_bootstrap_team_skipped_silently_witness :
  calculateFixtureDifficulty sampleStrengths [mkFPLTeam 1 "Arsenal"%string] [mkUpcoming 1 2 true] =
  (fst (calculateFixtureDifficulty sampleStrengths [mkFPLTeam 1 "Arsenal"%string] []) ++
     fst (calculateFixtureDifficulty sampleStrengths [mkFPLTeam 1 "Arsenal"%string] []),
   snd (calculateFixtureDifficulty sampleStrengths [mkFPLTeam 1 "Arsenal"%string] []) ++
     snd (calculateFixtureDifficulty sampleStrengths [mkFPLTeam 1 "Arsenal"%string] [])).
Proof.
  exact (unknown_bootstrap_team_skipped_silently sampleStrengths [mkFPLTeam 1 "Arsenal"%string]
           [] (mkUpcoming 1 2 true) [] (sampleStrength 2 "Chelsea" 2) eq_refl eq_refl).
Defined.

(** The warnings are exactly the opponent ids of the fixtures missing from
    the strengths map, in fixture order, and each fixture yields at most
    one rating or one warning. *)
Theorem warnings_exact : forall ts teams fs,
  snd (calculateFixtureDifficulty ts teams fs) =
    List.map opponentTeamId
      (filter (fun f => match map_get ts (opponentTeamId f) with None => true | Some _ => false end) fs) /\
  (List.length (fst (calculateFixtureDifficulty ts teams fs)) +
   List.length (snd (calculateFixtureDifficulty ts teams fs)) <= List.length fs)%nat.
Proof.
  intros ts teams fs; unfold calculateFixtureDifficulty.
  induction fs as [|f r [IH1 IH2]]; simpl; [split; [reflexivity | lia]|].
  destruct (scoreLoop ts (computeBounds ts) teams r) as [ds ws]; simpl in *.
  unfold scoreFixture.
  destruct (map_get ts (opponentTeamId f));
    [destruct (findTeam teams (opponentTeamId f))|]; simpl; split; try lia; congruence.
Qed.

Lemma in_slice0 : forall {A} (l : list A) c x, In x (slice0 l c) -> In x l.
Proof. intros A l c x; unfold slice0; destruct (Z.leb 0 c); apply in_firstn_in. Qed.

Lemma ss_app_cross : forall {A} (R : A -> A -> Prop) l1 l2,
  StronglySorted R (l1 ++ l2) -> forall a b, In a l1 -> In b l2 -> R a b.
Proof.
  intros A R l1 l2; induction l1 as [|x r IH]; simpl; intros H a b Ha Hb; [destruct Ha|].
  apply StronglySorted_inv in H as [H1 H2].
  destruct Ha as [<-|Ha]; [|auto].
  rewrite Forall_forall in H2; apply H2, in_or_app; right; exact Hb.
Qed.

Lemma filter_none : forall {A} (g : A -> bool) l,
  (forall x, In x l -> g x = false) -> filter g l = [].
Proof.
  intros A g l; induction l as [|x r IH]; intro H; simpl; [reflexivity|].
  rewrite (H x (or_introl eq_refl)); apply IH; intros y Hy; apply H; right; exact Hy.
Qed.

(** Finished fixtures, and fixtures the team does not play in, have no
    effect on [getTeamUpcomingFixtures]. *)
Theorem irrelevant_fixtures_ignored : forall st teams l1 f l2 teamId c,
  finished f = true \/ (team_h f <> teamId /\ team_a f <> teamId) ->
  getTeamUpcomingFixtures st teams (l1 ++ f :: l2) teamId c =
  getTeamUpcomingFixtures st teams (l1 ++ l2) teamId c.
Proof.
  intros st teams l1 f l2 teamId c H.
  unfold getTeamUpcomingFixtures, selectTeamFixtures; rewrite !filter_app; simpl.
  replace (negb (finished f) && (Z.eqb (team_h f) teamId || Z.eqb (team_a f) teamId)) with false;
    [reflexivity|].
  destruct H as [->|[H1 H2]]; [reflexivity|].
  apply Z.eqb_neq in H1, H2; rewrite H1, H2; destruct (finished f); reflexivity.
Qed.

Lemma irrelevant_fixtures_ignored_witness :
  getTeamUpcomingFixtures (Some sampleStrengths) sampleTeams
    ([mkFPLFixture 1 1 2 true] ++ mkFPLFixture 2 2 3 false :: [mkFPLFixture 3 3 1 false]) 1 None =
  getTeamUpcomingFixtures (Some sampleStrengths) sampleTeams
    ([mkFPLFixture 1 1 2 true] ++ [mkFPLFixture 3 3 1 false]) 1 None.
Proof.
  apply irrelevant_fixtures_ignored; right; split; discriminate.
Defined.

(** [getTeamUpcomingFixtures] returns no rating when the strength
    computation fails, and none when the team has no unfinished fixture. *)
Theorem upcoming_empty_cases : forall st teams allFixtures teamId c,
  (st = None -> getTeamUpcomingFixtures st teams allFixtures teamId c = []) /\
  ((forall f, In f allFixtures ->
      finished f = true \/ (team_h f <> teamId /\ team_a f <> teamId)) ->
   getTeamUpcomingFixtures st teams allFixtures teamId c = []).
Proof.
  intros st teams allFixtures teamId c; split; [intros ->; reflexivity|].
  intro H; unfold getTeamUpcomingFixtures, selectTeamFixtures.
  replace (filter _ allFixtures) with (@nil FPLFixture).
  - unfold slice0; destruct (Z.leb 0 _); simpl; rewrite ?firstn_nil;
      destruct st; reflexivity.
  - symmetry; apply filter_none; intros f Hf.
    destruct (H f Hf) as [->|[H1 H2]]; [reflexivity|].
    apply Z.eqb_neq in H1, H2; rewrite H1, H2; apply andb_false_r.
Qed.

Lemma upcoming_empty_cases_witness :
  getTeamUpcomingFixtures (Some sampleStrengths) sampleTeams [mkFPLFixture 1 1 2 true] 1 None = [].
Proof.
  apply (proj2 (upcoming_empty_cases (Some sampleStrengths) sampleTeams
                  [mkFPLFixture 1 1 2 true] 1 None)).
  intros f [<-|[]]; left; reflexivity.
Defined.

(** The fixtures [getTeamUpcomingFixtures] scores (for [count >= 0]) are
    the team's next ones: [min(count, n)] of its [n] unfinished fixtures,
    none of them later than any unfinished fixture left out. *)
Theorem selection_is_next_fixtures : forall allFixtures teamId count,
  (0 <= count)%Z ->
  let pending := filter (fun f => negb (finished f) &&
                   (Z.eqb (team_h f) teamId || Z.eqb (team_a f) teamId)) allFixtures in
  exists sel rest,
    selectTeamFixtures allFixtures teamId count =
      List.map (fun f => mkUpcoming (event f)
                           (if Z.eqb (team_h f) teamId then team_a f else team_h f)
                           (Z.eqb (team_h f) teamId)) sel /\
    List.length sel = Nat.min (Z.to_nat count) (List.length pending) /\
    Permutation (sel ++ rest) pending /\
    (forall a b, In a sel -> In b rest -> (event a <= event b)%Z).
Proof.
  intros allFixtures teamId count Hc pending.
  exists (firstn (Z.to_nat count) (sortByEvent pending)),
         (skipn (Z.to_nat count) (sortByEvent pending)).
  repeat split.
  - unfold selectTeamFixtures, slice0; apply Z.leb_le in Hc; rewrite Hc; reflexivity.
  - rewrite length_firstn, (Permutation_length (sortByEvent_perm pending)); reflexivity.
  - rewrite firstn_skipn; apply sortByEvent_perm.
  - intros a b Ha Hb.
    pose proof (sortByEvent_sorted pending) as Hs.
    rewrite <- (firstn_skipn (Z.to_nat count) (sortByEvent pending)) in Hs.
    exact (ss_app_cross eventLe _ _ Hs a b Ha Hb).
Qed.

Lemma selection_is_next_fixtures_witness :
  exists sel rest,
    selectTeamFixtures sampleFixtures 1 2 =
      List.map (fun f => mkUpcoming (event f)
                           (if Z.eqb (team_h f) 1 then team_a f else team_h f)
                           (Z.eqb (team_h f) 1)) sel /\
    List.length sel = 2%nat /\
    (forall a b, In a sel -> In b rest -> (event a <= event b)%Z).
Proof.
  destruct (selection_is_next_fixtures sampleFixtures 1 2 ltac:(lia))
    as (sel & rest & H1 & H2 & _ & H4).
  exists sel, rest; split; [exact H1 | split; [rewrite H2; reflexivity | exact H4]].
Defined.

(** Venue and opponent of each scored fixture: when the team is the home
    side the fixture is home and the opponent is the away team, otherwise
    it is away and the opponent is the home team. *)
Theorem selected_venue : forall allFixtures teamId count u,
  In u (selectTeamFixtures allFixtures teamId count) ->
  exists f, In f allFixtures /\ finished f = false /\ gameweek u = event f /\
    ((team_h f = teamId /\ isHome u = true /\ opponentTeamId u = team_a f) \/
     (team_h f <> teamId /\ team_a f = teamId /\ isHome u = false /\
      opponentTeamId u = team_h f)).
Proof.
  intros allFixtures teamId count u Hu; unfold selectTeamFixtures in Hu.
  apply in_map_iff in Hu as (f & <- & Hf).
  apply in_slice0, sortByEvent_in, filter_In in Hf as [Hf Hp].
  apply andb_prop in Hp as [Hn Ht].
  exists f; simpl; repeat split; auto.
  - destruct (finished f); [discriminate | reflexivity].
  - destruct (Z.eqb (team_h f) teamId) eqn:E.
    + left; apply Z.eqb_eq in E; auto.
    + right; apply Z.eqb_neq in E; simpl in Ht; apply Z.eqb_eq in Ht; auto.
Qed.

Lemma selected_venue_witness :
  exists f, In f sampleFixtures /\ finished f = false /\ 2%Z = event f /\
    ((team_h f = 1%Z /\ false = true /\ 3%Z = team_a f) \/
     (team_h f <> 1%Z /\ team_a f = 1%Z /\ false = false /\ 3%Z = team_h f)).
Proof.
  assert (Hu : In (mkUpcoming 2 3 false) (selectTeamFixtures sampleFixtures 1 10))
    by (vm_compute; auto 10).
  exact (selected_venue _ _ _ _ Hu).
Defined.

Lemma fold_left_inv : forall {A B} (f : B -> A -> B) (I : B -> Prop) l b,
  I b -> (forall b' x, In x l -> I b' -> I (f b' x)) -> I (fold_left f l b).
Proof.
  intros A B f I l; induction l as [|x r IH]; intros b Hb Hs; simpl; [exact Hb|].
  apply IH; [apply Hs; [left; reflexivity | exact Hb]|].
  intros b' y Hy; apply Hs; right; exact Hy.
Qed.

Lemma map_set_in : forall {A} (m : list (Z * A)) k v k' v',
  In (k', v') (map_set m k v) -> (k' = k /\ v' = v) \/ In (k', v') m.
Proof.
  intros A m k v; induction m as [|[k0 v0] r IH]; intros k' v' H; simpl in *.
  - destruct H as [H|[]]; inversion H; auto.
  - destruct (Z.eqb k k0) eqn:E.
    + destruct H as [H|H]; [inversion H; auto | auto].
    + destruct H as [H|H]; [auto|]. destruct (IH _ _ H); auto.
Qed.

Lemma map_set_keys : forall {A} (m : list (Z * A)) k v k',
  In k' (List.map fst (map_set m k v)) -> k' = k \/ In k' (List.map fst m).
Proof.
  intros A m k v k' H; apply in_map_iff in H as ([k1 v1] & <- & H).
  destruct (map_set_in _ _ _ _ _ H) as [[-> _]|H']; [auto|].
  right; apply in_map_iff; exists (k1, v1); auto.
Qed.

Lemma map_set_nodup : forall {A} (m : list (Z * A)) k v,
  NoDup (List.map fst m) -> NoDup (List.map fst (map_set m k v)).
Proof.
  intros A m k v; induction m as [|[k0 v0] r IH]; intro H; simpl in *.
  - repeat constructor; simpl; tauto.
  - inversion H as [|? ? Hn Hr]; subst.
    destruct (Z.eqb k k0) eqn:E; simpl.
    + apply Z.eqb_eq in E; subst; constructor; assumption.
    + constructor; [|auto].
      intro Hin; apply map_set_keys in Hin as [->|Hin]; [|tauto].
      rewrite Z.eqb_refl in E; discriminate.
Qed.

Lemma map_set_length : forall {A} (m : list (Z * A)) k v,
  (List.length (map_set m k v) <= S (List.length m))%nat.
Proof.
  intros A m k v; induction m as [|[k0 v0] r IH]; simpl; [lia|].
  destruct (Z.eqb k k0); simpl; lia.
Qed.

(** A successful computation on an empty map yields a map with one entry
    per distinct key, keyed by bootstrap team ids, each entry carrying its
    own key as [teamId] and that team's name, and no more entries than
    bootstrap teams. *)
Theorem calculate_result_shape : forall understatData teams m,
  _calculateTeamStrengths (Some understatData) (Some teams) [] = Some m ->
  NoDup (List.map fst m) /\
  (forall k s, In (k, s) m ->
     teamId s = k /\ exists t, In t teams /\ id t = k /\ teamName s = name t) /\
  (List.length m <= List.length teams)%nat.
Proof.
  intros understatData teams m H.
  destruct understatData as [|u0 ur]; [discriminate|].
  simpl in H; injection H as <-.
  match goal with |- context [fold_left ?f teams []] => set (step := f) end.
  split; [|split].
  - apply (fold_left_inv step (fun st => NoDup (List.map fst st))); [constructor|].
    intros st x _ Hst; unfold step; destruct_lookup; auto.
    apply map_set_nodup, Hst.
  - apply (fold_left_inv step (fun st => forall k s, In (k, s) st ->
             teamId s = k /\ exists t, In t teams /\ id t = k /\ teamName s = name t));
      [intros k s []|].
    intros st x Hx Hst; unfold step; destruct_lookup; auto.
    intros k s Hin; apply map_set_in in Hin as [[-> ->]|Hin]; [|auto].
    split; [reflexivity|]; exists x; auto.
  - assert (G : forall l st, (List.length (fold_left step l st) <=
                              List.length l + List.length st)%nat).
    { induction l as [|x r IH]; intro st; simpl; [lia|].
      specialize (IH (step st x)).
      assert (List.length (step st x) <= S (List.length st))%nat
        by (unfold step; destruct_lookup;
            [apply map_set_length | lia]).
      lia. }
    specialize (G teams []); simpl in G; lia.
Qed.

Lemma calculate_result_shape_witness :
  NoDup (List.map fst (match _calculateTeamStrengths (Some [sampleUnderstat 1 "Arsenal"%string])
                              (Some sampleTeams) [] with Some m => m | None => [] end)).
Proof.
  destruct (calculate_result_shape [sampleUnderstat 1 "Arsenal"%string] sampleTeams
              (match _calculateTeamStrengths (Some [sampleUnderstat 1 "Arsenal"%string])
                       (Some sampleTeams) [] with Some m => m | None => [] end)
              ltac:(vm_compute; reflexivity)) as [H _].
  exact H.
Defined.

Lemma run_cons_fst : forall s t e rest,
  fst (run s ((t, e) :: rest)) = fst (run (fst (step s e)) rest).
Proof.
  intros s t e rest; simpl.
  destruct (step s e) as [s1 o]; simpl; destruct (run s1 rest); reflexivity.
Qed.

Lemma step_count_bound : forall s e,
  (computeCount (fst (step s e)) + idleBit (fst (step s e)) <=
   computeCount s + idleBit s + (if isCleanup (0%Z, e) then 1 else 0))%nat.
Proof.
  intros [ts calc n st] e; unfold idleBit;
    destruct e; simpl; destruct ts; destruct calc; simpl; try lia;
    try (destruct (settledOf st _); simpl; lia).
Qed.

(** Starting from the initial service, the expensive computation is started
    at most once more than the number of cleanups (the [finally]-style
    resets of the in-flight handle) that have run: calls never start
    computations concurrently. *)
Theorem compute_count_bound : forall tr,
  (computeCount (fst (run emptySvc tr)) <=
   S (List.length (filter isCleanup tr)))%nat.
Proof.
  assert (G : forall tr s k,
    (computeCount s + idleBit s <= S k)%nat ->
    (computeCount (fst (run s tr)) + idleBit (fst (run s tr)) <=
     S (k + List.length (filter isCleanup tr)))%nat).
  { induction tr as [|[t e] rest IH]; intros s k H.
    - simpl; lia.
    - rewrite run_cons_fst; simpl filter.
      pose proof (step_count_bound s e) as Hs.
      destruct e; cbn [isCleanup snd List.length] in Hs |- *.
      + specialize (IH (fst (step s ECall)) k ltac:(lia)); exact IH.
      + specialize (IH (fst (step s (ESettle understat bootstrap))) k ltac:(lia)); exact IH.
      + specialize (IH (fst (step s ECleanup)) (S k) ltac:(lia)); lia. }
  intro tr; specialize (G tr emptySvc 0%nat ltac:(unfold emptySvc, idleBit; simpl; lia)); lia.
Qed.

(** A computation that succeeds but matches no team stores nothing, so the
    size check fails on the next call: after the cleanup, the next call
    starts a second computation instead of returning the empty map. *)
Theorem empty_success_not_cached : forall s0 t1 t2 t3 t4 u b,
  teamStrengths s0 = [] -> calculatingTeamStrengths s0 = None ->
  settledOf (settled s0) (computeCount s0) = None ->
  _calculateTeamStrengths u b [] = Some [] ->
  let '(s, rs) := run s0 [(t1, ECall); (t2, ESettle u b); (t3, ECleanup); (t4, ECall)] in
  rs = [RPromise (computeCount s0); RPromise (S (computeCount s0))] /\
  resultOf s (RPromise (computeCount s0)) = Some (Some []) /\
  computeCount s = S (S (computeCount s0)) /\
  teamStrengths s = [].
Proof.
  intros [ts calc n st] t1 t2 t3 t4 u b Hts Hc Hs Hr; simpl in *; subst.
  cbn -[_calculateTeamStrengths]; rewrite Hs; cbn -[_calculateTeamStrengths]; rewrite Hr; cbn; rewrite Nat.eqb_refl; cbn.
  rewrite Nat.eqb_refl; repeat split.
Qed.

Lemma empty_success_not_cached_witness :
  _calculateTeamStrengths (Some [sampleUnderstat 0 "Nowhere"%string]) (Some sampleTeams) [] = Some [] /\
  let '(s, rs) := run emptySvc [(0%Z, ECall);
                                (1%Z, ESettle (Some [sampleUnderstat 0 "Nowhere"%string]) (Some sampleTeams));
                                (2%Z, ECleanup); (3%Z, ECall)] in
  rs = [RPromise 0; RPromise 1] /\ resultOf s (RPromise 0) = Some (Some []) /\
  computeCount s = 2%nat /\ teamStrengths s = [].
Proof.
  split; [vm_compute; reflexivity|].
  exact (empty_success_not_cached emptySvc 0 1 2 3
           (Some [sampleUnderstat 0 "Nowhere"%string]) (Some sampleTeams)
           eq_refl eq_refl eq_refl ltac:(vm_compute; reflexivity)).
Defined.

Lemma map_get_set : forall {A} (m : list (Z * A)) k v k',
  map_get (map_set m k v) k' = if Z.eqb k' k then Some v else map_get m k'.
Proof.
  intros A m k v k'; induction m as [|[k0 v0] r IH]; simpl.
  - destruct (Z.eqb k' k); reflexivity.
  - destruct (Z.eqb k k0) eqn:E; simpl.
    + apply Z.eqb_eq in E; subst; destruct (Z.eqb k' k0); reflexivity.
    + rewrite IH. destruct (Z.eqb k' k) eqn:E1; [|reflexivity].
      apply Z.eqb_eq in E1; subst; rewrite E; reflexivity.
Qed.

(** ** [getPlayerHistory] *)

(** A fetched history is stored, so every later request for that player is
    answered from the cache whatever the network does, and no other
    player's entry changes; a failed fetch returns [] and stores nothing,
    so the next request fetches again. *)
Theorem getPlayerHistory_caching : forall {H} (cache : list (Z * list H)) pid,
  map_get cache pid = None ->
  (forall data fetch',
     let '(cache1, h) := getPlayerHistory cache pid (Some data) in
     h = match data with Some l => l | None => [] end /\
     getPlayerHistory cache1 pid fetch' = (cache1, h) /\
     (forall k, k <> pid -> map_get cache1 k = map_get cache k)) /\
  getPlayerHistory cache pid None = (cache, []).
Proof.
  intros Hy cache pid Hn; unfold getPlayerHistory; rewrite Hn; split; [|reflexivity].
  intros data fetch'; split; [reflexivity|split].
  - rewrite map_get_set, Z.eqb_refl; reflexivity.
  - intros k Hk; rewrite map_get_set.
    destruct (Z.eqb k pid) eqn:E; [apply Z.eqb_eq in E; contradiction | reflexivity].
Qed.

Lemma getPlayerHistory_caching_witness :
  map_get (@nil (Z * list nat)) 7%Z = None /\
  getPlayerHistory (fst (getPlayerHistory (@nil (Z * list nat)) 7%Z (Some (Some [1; 2]%nat))))
    7%Z None = ([(7%Z, [1; 2]%nat)], [1; 2]%nat).
Proof.
  split; [reflexivity|].
  destruct (getPlayerHistory_caching (@nil (Z * list nat)) 7%Z eq_refl) as [Hs _].
  specialize (Hs (Some [1; 2]%nat) None); simpl in Hs |- *.
  destruct Hs as [_ [Hs _]]; exact Hs.
Defined.

(** ** [getRecommendations] *)

Lemma playerMapOf_get_aux : forall players m k,
  (map_get (fold_left (fun m p => map_set m (playerId p) p) players m) k = None <->
     map_get m k = None /\ ~ exists p, In p players /\ playerId p = k) /\
  (forall p, map_get (fold_left (fun m p => map_set m (playerId p) p) players m) k = Some p ->
     map_get m k = Some p \/ (In p players /\ playerId p = k)).
Proof.
  induction players as [|q r IH]; intros m k; simpl.
  - split; [split; [intro H; split; [exact H | intros (p & [] & _)] | tauto] | auto].
  - destruct (IH (map_set m (playerId q) q) k) as [IH1 IH2].
    rewrite map_get_set in IH1, IH2.
    destruct (Z.eqb k (playerId q)) eqn:E.
    + apply Z.eqb_eq in E; subst. split.
      * rewrite IH1; split; [intros [H _]; discriminate|].
        intros [_ Hn]; exfalso; apply Hn; exists q; auto.
      * intros p Hp; destruct (IH2 p Hp) as [Hq|[Hin Hk]];
          [injection Hq as <-; auto | auto].
    + split.
      * rewrite IH1; split; intros [H1 H2]; split; auto.
        -- intros (p & [<-|Hp] & Hk); [subst; rewrite Z.eqb_refl in E; discriminate|].
           apply H2; eauto.
        -- intros (p & Hp & Hk); apply H2; eauto.
      * intros p Hp; destruct (IH2 p Hp) as [Hq|[Hin Hk]]; auto.
Qed.

Lemma playerMapOf_get : forall players k,
  (map_get (playerMapOf players) k = None <-> ~ exists p, In p players /\ playerId p = k) /\
  (forall p, map_get (playerMapOf players) k = Some p -> In p players /\ playerId p = k).
Proof.
  intros players k; destruct (playerMapOf_get_aux players [] k) as [H1 H2].
  unfold playerMapOf; split.
  - rewrite H1; simpl; tauto.
  - intros p Hp; destruct (H2 p Hp) as [Hq|Hq]; [discriminate | exact Hq].
Qed.

Lemma existsb_player : forall players k,
  existsb (fun p => Z.eqb (playerId p) k) players = true <->
  exists p, In p players /\ playerId p = k.
Proof.
  intros players k; rewrite existsb_exists; split;
    intros (p & Hp & Hk); exists p; split; auto; apply Z.eqb_eq; assumption.
Qed.

Lemma buyRecs_join : forall players l,
  List.map (fun r => (playerId (BuyRecommendation.player r), BuyRecommendation.buyScore r))
    (mapDropNull (toBuy (playerMapOf players)) l) =
  List.map (fun c => (CachedBuyRec.player_id c, CachedBuyRec.buy_score c))
    (filter (fun c => existsb (fun p => Z.eqb (playerId p) (CachedBuyRec.player_id c)) players) l) /\
  (forall r, In r (mapDropNull (toBuy (playerMapOf players)) l) ->
     In (BuyRecommendation.player r) players).
Proof.
  intros players; induction l as [|c l [IH1 IH2]]; simpl; [split; [reflexivity | tauto]|].
  destruct (playerMapOf_get players (CachedBuyRec.player_id c)) as [HN HS].
  destruct (toBuy (playerMapOf players) c) as [y|] eqn:T; unfold toBuy in T;
    destruct (map_get (playerMapOf players) (CachedBuyRec.player_id c)) as [p|] eqn:E;
    try discriminate.
  - injection T as <-.
    destruct (HS p eq_refl) as [Hin Hk].
    assert (existsb (fun p => Z.eqb (playerId p) (CachedBuyRec.player_id c)) players = true)
      as -> by (apply existsb_player; eauto).
    simpl; rewrite IH1, Hk; split; [reflexivity|].
    intros r [<-|Hr]; [exact Hin | auto].
  - assert (existsb (fun p => Z.eqb (playerId p) (CachedBuyRec.player_id c)) players = false)
      as ->.
    { destruct (existsb _ _) eqn:Ex; [|reflexivity].
      exfalso; apply (proj1 HN eq_refl), existsb_player, Ex. }
    split; [exact IH1 | exact IH2].
Qed.

Lemma sellRecs_join : forall players l,
  List.map (fun r => (playerId (SellRecommendation.player r), SellRecommendation.sellScore r))
    (mapDropNull (toSell (playerMapOf players)) l) =
  List.map (fun c => (CachedSellRec.player_id c, CachedSellRec.sell_score c))
    (filter (fun c => existsb (fun p => Z.eqb (playerId p) (CachedSellRec.player_id c)) players) l) /\
  (forall r, In r (mapDropNull (toSell (playerMapOf players)) l) ->
     In (SellRecommendation.player r) players).
Proof.
  intros players; induction l as [|c l [IH1 IH2]]; simpl; [split; [reflexivity | tauto]|].
  destruct (playerMapOf_get players (CachedSellRec.player_id c)) as [HN HS].
  destruct (toSell (playerMapOf players) c) as [y|] eqn:T; unfold toSell in T;
    destruct (map_get (playerMapOf players) (CachedSellRec.player_id c)) as [p|] eqn:E;
    try discriminate.
  - injection T as <-.
    destruct (HS p eq_refl) as [Hin Hk].
    assert (existsb (fun p => Z.eqb (playerId p) (CachedSellRec.player_id c)) players = true)
      as -> by (apply existsb_player; eauto).
    simpl; rewrite IH1, Hk; split; [reflexivity|].
    intros r [<-|Hr]; [exact Hin | auto].
  - assert (existsb (fun p => Z.eqb (playerId p) (CachedSellRec.player_id c)) players = false)
      as ->.
    { destruct (existsb _ _) eqn:Ex; [|reflexivity].
      exfalso; apply (proj1 HN eq_refl), existsb_player, Ex. }
    split; [exact IH1 | exact IH2].
Qed.

Lemma getRecommendations_miss : forall st now resp players,
  recCacheMiss st now ->
  getRecommendations st now resp players =
  match resp, players with
  | Some (buy, sell), Some ps =>
      let pm := playerMapOf ps in
      let b := mapDropNull (toBuy pm) (match buy with Some l => l | None => [] end) in
      let s := mapDropNull (toSell pm) (match sell with Some l => l | None => [] end) in
      (mkRecState (Some b) (Some s) now, (b, s))
  | _, _ => (st, ([], []))
  end.
Proof.
  intros [cb cs ts] now resp players Hm; unfold recCacheMiss in Hm; simpl in Hm.
  unfold getRecommendations; simpl.
  destruct cb as [b|]; destruct cs as [s|]; try reflexivity.
  destruct Hm as [Hm|[Hm|Hm]]; try discriminate.
  assert (Z.ltb (now - ts) CACHE_TTL = false) as -> by (apply Z.ltb_ge; lia).
  reflexivity.
Qed.

(** Without a usable cache, a successful fetch keeps exactly the backend's
    recommendations whose player is among [getPlayers()], in the backend's
    order, each with its own score and attached to a player of that id;
    both lists are stored with the current time. *)
Theorem recommendations_join : forall st now buy sell players st' b s,
  recCacheMiss st now ->
  getRecommendations st now (Some (buy, sell)) (Some players) = (st', (b, s)) ->
  List.map (fun r => (playerId (BuyRecommendation.player r), BuyRecommendation.buyScore r)) b =
  List.map (fun c => (CachedBuyRec.player_id c, CachedBuyRec.buy_score c))
    (filter (fun c => existsb (fun p => Z.eqb (playerId p) (CachedBuyRec.player_id c)) players)
       (match buy with Some l => l | None => [] end)) /\
  List.map (fun r => (playerId (SellRecommendation.player r), SellRecommendation.sellScore r)) s =
  List.map (fun c => (CachedSellRec.player_id c, CachedSellRec.sell_score c))
    (filter (fun c => existsb (fun p => Z.eqb (playerId p) (CachedSellRec.player_id c)) players)
       (match sell with Some l => l | None => [] end)) /\
  (forall r, In r b -> In (BuyRecommendation.player r) players) /\
  (forall r, In r s -> In (SellRecommendation.player r) players) /\
  st' = mkRecState (Some b) (Some s) now.
Proof.
  intros st now buy sell players st' b s Hm Hr.
  rewrite getRecommendations_miss in Hr by exact Hm; simpl in Hr.
  injection Hr as <- <- <-.
  destruct (buyRecs_join players (match buy with Some l => l | None => [] end)).
  destruct (sellRecs_join players (match sell with Some l => l | None => [] end)).
  repeat split; auto.
Qed.

Lemma recommendations_join_witness :
  recCacheMiss recInitial 1000 /\
  List.map (fun r => playerId (BuyRecommendation.player r))
    (fst (snd (getRecommendations recInitial 1000
                 (Some (Some [sampleBuy 10; sampleBuy 99], Some [sampleSell 99]))
                 (Some samplePlayers)))) = [10%Z].
Proof.
  assert (Hm : recCacheMiss recInitial 1000) by (left; reflexivity).
  split; [exact Hm|].
  destruct (getRecommendations recInitial 1000
              (Some (Some [sampleBuy 10; sampleBuy 99], Some [sampleSell 99]))
              (Some samplePlayers)) as [st' [b s]] eqn:E.
  destruct (recommendations_join _ _ _ _ _ _ _ _ Hm E) as [Hb _].
  simpl; apply (f_equal (List.map fst)) in Hb.
  rewrite !map_map in Hb; simpl in Hb; exact Hb.
Defined.

(** After a fetch that succeeds without a usable cache, every call less
    than [CACHE_TTL] ms later returns the stored lists without touching the
    network or the state; from [CACHE_TTL] ms on, the answer is fetched
    anew, as if no cache existed. *)
Theorem recommendations_ttl : forall st now resp players now' resp' players',
  recCacheMiss st now ->
  let '(st1, r1) := getRecommendations st now (Some resp) (Some players) in
  ((now' - now < CACHE_TTL)%Z -> getRecommendations st1 now' resp' players' = (st1, r1)) /\
  ((CACHE_TTL <= now' - now)%Z ->
     snd (getRecommendations st1 now' resp' players') =
     snd (getRecommendations recInitial now' resp' players')).
Proof.
  intros st now [buy sell] players now' resp' players' Hm.
  rewrite getRecommendations_miss by exact Hm; simpl.
  split; intro Ht.
  - unfold getRecommendations at 1; simpl.
    assert (Z.ltb (now' - now) CACHE_TTL = true) as -> by (apply Z.ltb_lt; exact Ht).
    reflexivity.
  - rewrite getRecommendations_miss by (right; right; exact Ht).
    rewrite (getRecommendations_miss recInitial) by (left; reflexivity).
    destruct resp' as [[? ?]|]; destruct players'; reflexivity.
Qed.

Lemma recommendations_ttl_witness :
  recCacheMiss recInitial 1000 /\
  getRecommendations (fst (getRecommendations recInitial 1000
                             (Some (Some [sampleBuy 10], Some [])) (Some samplePlayers)))
    2000 None None =
  getRecommendations recInitial 1000 (Some (Some [sampleBuy 10], Some [])) (Some samplePlayers).
Proof.
  assert (Hm : recCacheMiss recInitial 1000) by (left; reflexivity).
  split; [exact Hm|].
  pose proof (recommendations_ttl recInitial 1000 (Some [sampleBuy 10], Some [])
                samplePlayers 2000 None None Hm) as H.
  destruct (getRecommendations recInitial 1000 (Some (Some [sampleBuy 10], Some []))
              (Some samplePlayers)) as [st1 r1].
  apply (proj1 H); vm_compute; reflexivity.
Defined.

(** A failed request (backend or player list) without a usable cache
    returns two empty lists and leaves the state as it was: a stale cache is
    neither served nor refreshed, and nothing new is cached. *)
Theorem recommendations_failure : forall st now resp players,
  recCacheMiss st now -> (resp = None \/ players = None) ->
  getRecommendations st now resp players = (st, ([], [])).
Proof.
  intros st now resp players Hm Hf.
  rewrite getRecommendations_miss by exact Hm.
  destruct Hf as [->| ->]; [reflexivity|]; destruct resp as [[? ?]|]; reflexivity.
Qed.

Lemma recommendations_failure_witness :
  getRecommendations (mkRecState (Some []) (Some []) 0) 400000 None (Some samplePlayers) =
  (mkRecState (Some []) (Some []) 0, ([], [])).
Proof.
  apply recommendations_failure; [right; right; vm_compute; congruence | left; reflexivity].
Defined.

(** ** [FixtureDifficultyPage] *)

Lemma sumZ_acc : forall xs a, fold_left Z.add xs a = (a + sumZ xs)%Z.
Proof.
  unfold sumZ; induction xs as [|x r IH]; intro a; simpl; [lia|].
  rewrite (IH (a + x)%Z), (IH x); lia.
Qed.

Lemma sumZ_bounds : forall xs,
  Forall (fun x => 1 <= x <= 5)%Z xs ->
  (Z.of_nat (List.length xs) <= sumZ xs <= 5 * Z.of_nat (List.length xs))%Z.
Proof.
  induction xs as [|x r IH]; intro H; [simpl; unfold sumZ; simpl; lia|].
  inversion H as [|? ? Hx Hr]; subst; specialize (IH Hr).
  unfold sumZ; simpl; rewrite sumZ_acc; simpl List.length; lia.
Qed.

Lemma mean_range : forall xs,
  xs <> [] -> Forall (fun x => 1 <= x <= 5)%Z xs ->
  1 <= inject_Z (sumZ xs) / inject_Z (Z.of_nat (List.length xs)) <= 5.
Proof.
  intros xs Hne Hf; destruct (sumZ_bounds xs Hf) as [Hlo Hhi].
  assert (Hn : 0 < inject_Z (Z.of_nat (List.length xs))).
  { change 0 with (inject_Z 0); rewrite <- Zlt_Qlt.
    destruct xs; [contradiction | simpl; lia]. }
  split.
  - apply Qle_shift_div_l; [exact Hn|].
    rewrite Qmult_1_l; rewrite <- Zle_Qle; exact Hlo.
  - apply Qle_shift_div_r; [exact Hn|].
    change 5 with (inject_Z 5); rewrite <- inject_Z_mult, <- Zle_Qle; exact Hhi.
Qed.

Lemma upcoming_buckets : forall strengths teams allFixtures teamId count d,
  In d (getTeamUpcomingFixtures strengths teams allFixtures teamId count) ->
  (1 <= FD.attackDifficulty d <= 5)%Z /\ (1 <= FD.defenseDifficulty d <= 5)%Z.
Proof.
  intros strengths teams allFixtures teamId count d Hin.
  unfold getTeamUpcomingFixtures in Hin; destruct strengths as [ts|]; [|destruct Hin].
  destruct (scoreLoop_origin _ _ _ _ _ Hin) as (f & s & t & _ & _ & _ & ->).
  simpl; split; apply scaleToDifficulty_range.
Qed.

(** The averages the page computes for a team from the service's ratings
    are [0, 0] when no rating falls within [maxFixtures], and otherwise both
    lie between 1 and 5. *)
Theorem teamAverage_range : forall strengths teams allFixtures teamId count maxFixtures,
  let fixtures := getTeamUpcomingFixtures strengths teams allFixtures teamId count in
  let '(a, d) := teamAverage fixtures maxFixtures in
  (slice0 fixtures maxFixtures = [] /\ a = 0 /\ d = 0) \/
  (slice0 fixtures maxFixtures <> [] /\ 1 <= a <= 5 /\ 1 <= d <= 5).
Proof.
  intros strengths teams allFixtures teamId count maxFixtures fixtures.
  unfold teamAverage.
  destruct (slice0 fixtures maxFixtures) as [|f0 rest] eqn:E; [left; auto|].
  right; split; [discriminate|].
  assert (Hb : forall x, In x (f0 :: rest) ->
                 (1 <= FD.attackDifficulty x <= 5)%Z /\ (1 <= FD.defenseDifficulty x <= 5)%Z).
  { intros x Hx; rewrite <- E in Hx; apply in_slice0 in Hx.
    exact (upcoming_buckets _ _ _ _ _ _ Hx). }
  assert (Hl : forall (g : FD.t -> Z), List.length (List.map g (f0 :: rest)) = List.length (f0 :: rest))
    by (intro g; apply length_map).
  split.
  - rewrite <- (Hl FD.attackDifficulty); apply mean_range; [discriminate|].
    apply Forall_forall; intros x Hx; apply in_map_iff in Hx as (y & <- & Hy).
    apply (Hb y Hy).
  - rewrite <- (Hl FD.defenseDifficulty); apply mean_range; [discriminate|].
    apply Forall_forall; intros x Hx; apply in_map_iff in Hx as (y & <- & Hy).
    apply (Hb y Hy).
Qed.

Lemma jsRound_half : forall n, jsRound (inject_Z n / 2) = ((n + 1) / 2)%Z.
Proof.
  intro n; unfold jsRound, Qfloor; simpl.
  replace (n * 1 * 2 + 2)%Z with ((n + 1) * 2)%Z by ring.
  replace 4%Z with (2 * 2)%Z by reflexivity.
  rewrite Z.div_mul_cancel_r; lia.
Qed.

(** The number shown in a gameweek cell is the mean of the attack and
    defense buckets with halves rounded up; for a rating of the service it
    lies between the two buckets, hence between 1 and 5. *)
Theorem avgDifficulty_cell : forall strengths teams allFixtures teamId count d,
  In d (getTeamUpcomingFixtures strengths teams allFixtures teamId count) ->
  avgDifficulty d = ((FD.attackDifficulty d + FD.defenseDifficulty d + 1) / 2)%Z /\
  (Z.min (FD.attackDifficulty d) (FD.defenseDifficulty d) <= avgDifficulty d <=
   Z.max (FD.attackDifficulty d) (FD.defenseDifficulty d))%Z /\
  (1 <= avgDifficulty d <= 5)%Z.
Proof.
  intros strengths teams allFixtures teamId count d Hin.
  destruct (upcoming_buckets _ _ _ _ _ _ Hin) as [Ha Hd].
  unfold avgDifficulty; rewrite jsRound_half.
  set (a := FD.attackDifficulty d) in *; set (b := FD.defenseDifficulty d) in *.
  assert (H1 : (Z.min a b <= (a + b + 1) / 2)%Z)
    by (apply Z.div_le_lower_bound; lia).
  assert (H2 : ((a + b + 1) / 2 < Z.max a b + 1)%Z)
    by (apply Z.div_lt_upper_bound; lia).
  repeat split; lia.
Qed.

Lemma avgDifficulty_cell_witness :
  let ds := getTeamUpcomingFixtures (Some sampleStrengths) sampleTeams sampleFixtures 1 None in
  exists d, In d ds /\ (1 <= avgDifficulty d <= 5)%Z.
Proof.
  destruct (getTeamUpcomingFixtures (Some sampleStrengths) sampleTeams sampleFixtures 1 None)
    as [|d ds] eqn:E; [vm_compute in E; discriminate|].
  exists d; split; [left; reflexivity|].
  assert (Hin : In d (getTeamUpcomingFixtures (Some sampleStrengths) sampleTeams sampleFixtures 1 None))
    by (rewrite E; left; reflexivity).
  exact (proj2 (proj2 (avgDifficulty_cell _ _ _ _ _ _ Hin))).
Defined.

Lemma setAddAll_in : forall xs acc x, In x (setAddAll acc xs) <-> In x acc \/ In x xs.
Proof.
  induction xs as [|y r IH]; intros acc x; simpl; [tauto|].
  rewrite IH; destruct (existsb (Z.eqb y) acc) eqn:E.
  - apply existsb_exists in E as (z & Hz & Hyz); apply Z.eqb_eq in Hyz; subst.
    split; [tauto|]. intros [H|[<-|H]]; auto.
  - rewrite in_app_iff; simpl; split; intros H; intuition.
Qed.

Lemma setAddAll_nodup : forall xs acc, NoDup acc -> NoDup (setAddAll acc xs).
Proof.
  induction xs as [|y r IH]; intros acc H; simpl; [exact H|].
  apply IH; destruct (existsb (Z.eqb y) acc) eqn:E; [exact H|].
  apply NoDup_app; [exact H | repeat constructor; simpl; tauto|].
  intros x Hx [Hyx|[]]; subst x; assert (existsb (Z.eqb y) acc = true) by
    (apply existsb_exists; exists y; split; [exact Hx | apply Z.eqb_refl]); congruence.
Qed.

Lemma insertZ_perm : forall x l, Permutation (insertZ x l) (x :: l).
Proof.
  intros x l; induction l as [|y r IH]; simpl; [reflexivity|].
  destruct (Z.leb x y); [reflexivity|].
  rewrite IH; apply perm_swap.
Qed.

Lemma sortZ_perm : forall l, Permutation (sortZ l) l.
Proof.
  induction l as [|x r IH]; simpl; [reflexivity|].
  rewrite insertZ_perm; apply perm_skip, IH.
Qed.

Lemma insertZ_sorted : forall x l, Sorted Z.le l -> Sorted Z.le (insertZ x l).
Proof.
  intros x l; induction l as [|y r IH]; intro H; simpl; [repeat constructor|].
  destruct (Z.leb x y) eqn:E.
  - constructor; [exact H | constructor; apply Z.leb_le; exact E].
  - apply Z.leb_gt in E. apply Sorted_inv in H as [Hr Hhd].
    constructor; [apply IH, Hr|].
    destruct r as [|z r']; simpl; [constructor; lia|].
    destruct (Z.leb x z); constructor; [lia|].
    inversion Hhd; assumption.
Qed.

Lemma sortZ_sorted : forall l, Sorted Z.le (sortZ l).
Proof. induction l as [|x r IH]; simpl; [constructor | apply insertZ_sorted, IH]. Qed.

Lemma ss_le_nodup_lt : forall l, StronglySorted Z.le l -> NoDup l -> StronglySorted Z.lt l.
Proof.
  induction l as [|x r IH]; intros H Hn; [constructor|].
  apply StronglySorted_inv in H as [H1 H2]; inversion Hn as [|? ? Hx Hr]; subst.
  constructor; [apply IH; assumption|].
  apply Forall_forall; intros y Hy.
  pose proof (proj1 (Forall_forall _ _) H2 y Hy).
  assert (x <> y) by (intros ->; contradiction). lia.
Qed.

Lemma slice0_firstn : forall {A} (l : list A) c, exists m, slice0 l c = firstn m l.
Proof. intros A l c; unfold slice0; destruct (Z.leb 0 c); eexists; reflexivity. Qed.

(** The gameweek columns of the page: ascending without repetition, each
    the gameweek of some loaded rating, never more than [maxFixtures] of
    them, and the earliest ones: a rating's gameweek missing from the
    columns comes after every column. *)
Theorem allGameweeks_columns : forall teamFixtures maxFixtures,
  let gws := allGameweeks teamFixtures maxFixtures in
  StronglySorted Z.lt gws /\
  (forall g, In g gws -> exists fs f, In fs teamFixtures /\ In f fs /\ FD.gameweek f = g) /\
  (forall fs f, In fs teamFixtures -> In f fs ->
     In (FD.gameweek f) gws \/ forall g, In g gws -> (g < FD.gameweek f)%Z) /\
  ((0 <= maxFixtures)%Z -> (List.length gws <= Z.to_nat maxFixtures)%nat).
Proof.
  intros teamFixtures maxFixtures gws.
  set (step := fun acc (fixtures : list FD.t) => setAddAll acc (List.map FD.gameweek fixtures)).
  assert (Hin : forall l acc g, In g (fold_left step l acc) <->
                  In g acc \/ exists fs f, In fs l /\ In f fs /\ FD.gameweek f = g).
  { induction l as [|fs r IH]; intros acc g; simpl.
    - split; [tauto | intros [H|(fs & f & [] & _)]; exact H].
    - rewrite IH; unfold step; rewrite setAddAll_in, in_map_iff; split.
      + intros [[H|(f & Hf & Hfs)]|(fs' & f & Hfs' & Hf & Hg)]; [tauto| |].
        * right; exists fs, f; auto.
        * right; exists fs', f; auto.
      + intros [H|(fs' & f & [<-|Hfs'] & Hf & Hg)]; [tauto| |].
        * left; right; exists f; auto.
        * right; exists fs', f; auto. }
  assert (Hnd : forall l acc, NoDup acc -> NoDup (fold_left step l acc)).
  { induction l as [|fs r IH]; intros acc H; simpl; [exact H|].
    apply IH; unfold step; apply setAddAll_nodup, H. }
  set (G := fold_left step teamFixtures []).
  assert (HG : gws = slice0 (sortZ G) maxFixtures) by reflexivity.
  assert (Hss : StronglySorted Z.lt (sortZ G)).
  { apply ss_le_nodup_lt.
    - apply Sorted_StronglySorted; [intros a b c; lia | apply sortZ_sorted].
    - apply (Permutation_NoDup (Permutation_sym (sortZ_perm G))), Hnd; constructor. }
  destruct (slice0_firstn (sortZ G) maxFixtures) as [m Hm].
  rewrite Hm in HG.
  split; [|split; [|split]].
  - rewrite HG; apply ss_firstn, Hss.
  - intros g Hg; rewrite HG in Hg; apply in_firstn_in in Hg.
    apply (Permutation_in _ (sortZ_perm G)) in Hg.
    apply Hin in Hg as [[]|H]; exact H.
  - intros fs f Hfs Hf.
    assert (HgG : In (FD.gameweek f) (sortZ G)).
    { apply (Permutation_in _ (Permutation_sym (sortZ_perm G))), Hin.
      right; exists fs, f; auto. }
    destruct (in_dec Z.eq_dec (FD.gameweek f) gws) as [Hy|Hn]; [left; exact Hy|right].
    intros g Hg; rewrite HG in Hg, Hn.
    assert (HgS : In (FD.gameweek f) (skipn m (sortZ G))).
    { rewrite <- (firstn_skipn m (sortZ G)) in HgG.
      apply in_app_or in HgG as [H|H]; [contradiction | exact H]. }
    rewrite <- (firstn_skipn m (sortZ G)) in Hss.
    exact (ss_app_cross _ _ _ Hss g _ Hg HgS).
  - intro Hc; unfold gws, allGameweeks; fold step; fold G; unfold slice0.
    rewrite (proj2 (Z.leb_le 0 maxFixtures) Hc), length_firstn; lia.
Qed.

Lemma allGameweeks_columns_witness :
  let gws := allGameweeks
               [getTeamUpcomingFixtures (Some sampleStrengths) sampleTeams sampleFixtures 1 None;
                getTeamUpcomingFixtures (Some sampleStrengths) sampleTeams sampleFixtures 2 None] 1 in
  (0 <= 1)%Z /\ (List.length gws <= 1)%nat.
Proof.
  split; [lia|].
  apply (proj2 (proj2 (proj2 (allGameweeks_columns
     [getTeamUpcomingFixtures (Some sampleStrengths) sampleTeams sampleFixtures 1 None;
      getTeamUpcomingFixtures (Some sampleStrengths) sampleTeams sampleFixtures 2 None] 1)))).
  lia.
Defined.

Lemma length_slice0 : forall {A} (l : list A) c,
  (0 <= c)%Z -> (List.length (slice0 l c) <= Z.to_nat c)%nat.
Proof.
  intros A l c Hc; unfold slice0; rewrite (proj2 (Z.leb_le 0 c) Hc), length_firstn; lia.
Qed.

(** A player's upcoming ratings: never more than [count] (default 5), each
    for an unfinished fixture of the player's summary with the same
    gameweek, at home exactly when the summary's [is_home] says so where it
    is given; none at all when the player is not among [getPlayers()]. *)
Theorem player_fixtures_shape : forall strengths cacheTeams summary players bootstrap
    playerId count,
  (0 <= match count with Some c => c | None => 5 end)%Z ->
  let ds := getPlayerUpcomingFixtures strengths cacheTeams summary players bootstrap
              playerId count in
  (List.length ds <= Z.to_nat (match count with Some c => c | None => 5 end))%nat /\
  (forall d, In d ds -> exists data f,
     summary = Some data /\ In f (match data with Some l => l | None => [] end) /\
     sf_finished f = false /\ FD.gameweek d = sf_event f /\
     (forall b, sf_is_home f = Some b -> FD.isHome d = b)) /\
  (forall ps, players = Some ps -> ~ (exists p, In p ps /\ ref_id p = playerId) -> ds = []).
Proof.
  intros strengths cacheTeams summary players bootstrap playerId count Hc ds.
  set (c := match count with Some c => c | None => 5%Z end) in *.
  unfold ds, getPlayerUpcomingFixtures; fold c.
  destruct summary as [data|]; [|simpl; split; [lia | split; [intros d [] | reflexivity]]].
  destruct players as [ps|]; [|simpl; split; [lia | split; [intros d [] | discriminate]]].
  destruct (find (fun p => Z.eqb (ref_id p) playerId) ps) as [player|] eqn:Ep;
    [|simpl; split; [lia | split; [intros d [] | reflexivity]]].
  assert (Hfound : forall ps', Some ps = Some ps' ->
                     ~ (exists p, In p ps' /\ ref_id p = playerId) -> False).
  { intros ps' Heq Hn; injection Heq as <-; apply Hn.
    apply find_some in Ep as [Hin Heq]; exists player; split; [exact Hin|].
    apply Z.eqb_eq, Heq. }
  destruct bootstrap as [[teams|]|];
    try (simpl; split; [lia | split; [intros d [] | intros; exfalso; eauto]]).
  destruct (find (fun t => String.eqb (name t) (ref_team player)) teams) as [pt|];
    [|simpl; split; [lia | split; [intros d [] | intros; exfalso; eauto]]].
  destruct strengths as [ts|];
    [|simpl; split; [lia | split; [intros d [] | intros; exfalso; eauto]]].
  split; [|split; [|intros; exfalso; eauto]].
  - unfold calculateFixtureDifficulty.
    eapply Nat.le_trans; [apply scoreLoop_length|].
    rewrite length_map; apply length_slice0, Hc.
  - intros d Hd; unfold calculateFixtureDifficulty in Hd.
    destruct (scoreLoop_origin _ _ _ _ _ Hd) as (u & s & t & Hu & _ & _ & ->).
    apply in_map_iff in Hu as (f & <- & Hf).
    apply in_slice0, filter_In in Hf as [Hf Hfin].
    exists data, f; repeat split; auto.
    + destruct (sf_finished f); [discriminate | reflexivity].
    + intros b Hb; simpl; rewrite Hb; reflexivity.
Qed.

Lemma player_fixtures_shape_witness :
  let ds := getPlayerUpcomingFixtures (Some sampleStrengths) sampleTeams
              (Some (Some sampleSummary)) (Some sampleRefs) (Some (Some sampleTeams)) 10 None in
  (0 <= 5)%Z /\ (List.length ds <= 5)%nat /\ ds <> [].
Proof.
  split; [lia|]; split; [|vm_compute; discriminate].
  exact (proj1 (player_fixtures_shape (Some sampleStrengths) sampleTeams
                  (Some (Some sampleSummary)) (Some sampleRefs) (Some (Some sampleTeams))
                  10 None ltac:(lia))).
Defined.
